(** * compare-env: a shallow embedding of [CompareEnv] and its properties

    The development follows the TypeScript class [CompareEnv]
    (src/CompareEnvUtil.ts): the values a parsed configuration file can
    hold, plain objects with their insertion-ordered own properties, the
    [Set] objects used for lookups, the flattening of a loaded YAML
    document, the two comparison modes and finally the [compare] method
    itself, whose console output, file accesses and exit code are recorded
    as a trace of events. *)

From stdpp Require Import base list strings pretty.
From Stdlib Require Import ZArith Ascii.

Local Open Scope string_scope.
Local Open Scope list_scope.

(** ** Values *)

(** A JavaScript number as far as this program looks at it: the program
    only ever compares numbers with [!==], and [NaN] is the one number
    that is not strictly equal to itself. *)
Inductive number :=
| NaN
| Num (z : Z).

(** The values for which [typeof v === 'object' && v !== null] is false:
    the leaves of a loaded document and the values of a parsed one. *)
Inductive scalar :=
| SUndefined
| SNull
| SBool (b : bool)
| SNumber (n : number)
| SString (s : string).

(** What [yaml.load] can return. A timestamp is loaded as a [Date]: an
    object without enumerable properties. *)
#[local] Unset Elimination Schemes.
Inductive jsval :=
| Scalar (s : scalar)
| DateObj (t : Z)
| Array (items : list jsval)
| Object (props : list (string * jsval)).
#[local] Set Elimination Schemes.

#[global] Instance number_eq_dec : EqDecision number.
Proof. solve_decision. Defined.
#[global] Instance scalar_eq_dec : EqDecision scalar.
Proof. solve_decision. Defined.

(** [a === b] and [a !== b] on scalars. *)
Definition strict_eq (a b : scalar) : bool :=
  match a, b with
  | SUndefined, SUndefined => true
  | SNull, SNull => true
  | SBool x, SBool y => bool_decide (x = y)
  | SNumber (Num x), SNumber (Num y) => bool_decide (x = y)
  | SString x, SString y => bool_decide (x = y)
  | _, _ => false
  end.

(** What reading a property, [obj[key]], gives on a parsed document: a
    value the document holds, or a member of [Object.prototype] found
    through the prototype chain, known by its name (the built-in method of
    that name; for [__proto__], the prototype object itself). *)
Inductive value :=
| Held (s : scalar)
| Inherited (name : string).

#[global] Instance value_eq_dec : EqDecision value.
Proof. solve_decision. Defined.

Definition undefined : value := Held SUndefined.

(** [a === b] and [a !== b] on what was read: a member of
    [Object.prototype] is strictly equal to itself only. *)
Definition value_strict_eq (a b : value) : bool :=
  match a, b with
  | Held x, Held y => strict_eq x y
  | Inherited n, Inherited m => bool_decide (n = m)
  | _, _ => false
  end.

Definition value_strict_ne (a b : value) : bool := negb (value_strict_eq a b).

(** The names of the properties of [Object.prototype]. *)
Definition Object_prototype_names : list string :=
  ["constructor"; "__defineGetter__"; "__defineSetter__"; "hasOwnProperty";
   "__lookupGetter__"; "__lookupSetter__"; "isPrototypeOf";
   "propertyIsEnumerable"; "toString"; "valueOf"; "__proto__"; "toLocaleString"].

(** ** Plain objects

    An object is the list of its own enumerable properties in insertion
    order, which is the order of [Object.keys] and of [for ... in] (JavaScript
    enumerates names that look like array indices first; the lists here
    keep every property where it was inserted); no key occurs twice. *)
Section objects.
Context {V : Type}.

(** [key in obj], own properties only. *)
Fixpoint prop_lookup (obj : list (string * V)) (key : string) : option V :=
  match obj with
  | [] => None
  | (k, v) :: rest => if decide (k = key) then Some v else prop_lookup rest key
  end.

(** The property [[key]: v] of an object literal: an existing property
    keeps its place and takes the value, a new one is added at the end. *)
Fixpoint prop_define (obj : list (string * V)) (key : string) (v : V)
  : list (string * V) :=
  match obj with
  | [] => [(key, v)]
  | (k, w) :: rest =>
      if decide (k = key) then (k, v) :: rest else (k, w) :: prop_define rest key v
  end.

(** [Object.keys(obj)]. *)
Definition Object_keys (obj : list (string * V)) : list string := obj.*1.

(** [obj[key] = v] on an object whose prototype is [Object.prototype]:
    as in a literal, except that an assignment to [__proto__], when the
    object has no property of that name itself, reaches the setter of
    [Object.prototype] and adds no property. *)
Definition prop_set (obj : list (string * V)) (key : string) (v : V)
  : list (string * V) :=
  if decide (key = "__proto__" ∧ key ∉ Object_keys obj) then obj
  else prop_define obj key v.

(** [Object.assign(target, source)]. *)
Definition Object_assign (target source : list (string * V)) : list (string * V) :=
  foldl (λ t kv, prop_set t kv.1 kv.2) target source.
End objects.

(** A parsed document: its own properties, and whether its prototype is
    still [Object.prototype], as it is for an object created as [{}]
    until [null] is assigned to its [__proto__]. *)
Record document := {
  own : list (string * scalar);
  inherits : bool
}.

(** [obj[key]] on a parsed document: the property of the document when it
    has one of that name, or else the member of [Object.prototype] of
    that name when the document has that prototype, or else [undefined]. *)
Definition prop_get (obj : document) (key : string) : value :=
  match prop_lookup (own obj) key with
  | Some s => Held s
  | None =>
      if inherits obj && bool_decide (key ∈ Object_prototype_names)
      then Inherited key else undefined
  end.

(** ** Sets of strings

    A [Set] keeps its elements in the order of their first insertion. *)
Definition Set_add (s : list string) (x : string) : list string :=
  if bool_decide (x ∈ s) then s else s ++ [x].

(** [new Set(array)]. *)
Definition new_Set (array : list string) : list string := foldl Set_add [] array.

(** [set.has(item)]. *)
Definition Set_has (s : list string) (item : string) : bool := bool_decide (item ∈ s).

(** ** Key comparison *)

Record CompareConfigKeysRecord := {
  missingKeysInFirstConfigFile : list string;
  missingKeysInSecondConfigFile : list string
}.

Definition compareEnvKeys (firstConfigObjectArray secondConfigObjectArray : list string)
  : CompareConfigKeysRecord :=
  let set1 := new_Set firstConfigObjectArray in
  let set2 := new_Set secondConfigObjectArray in
  {| missingKeysInFirstConfigFile :=
       filter (λ item, negb (Set_has set1 item)) secondConfigObjectArray;
     missingKeysInSecondConfigFile :=
       filter (λ item, negb (Set_has set2 item)) firstConfigObjectArray |}.

(** ** Value comparison *)

(** [getValueDifferences]; [firstConfigFile] and [secondConfigFile] are the
    two fields of [this] the method reads. Each difference is the object
    literal [{[firstConfigFile]: value1, [secondConfigFile]: value2}]. *)
Definition getValueDifferences (firstConfigFile secondConfigFile : string)
    (firstConfigObject secondConfigObject : document)
  : list (string * list (string * value)) :=
  let allKeys :=
    new_Set (Object_keys (own firstConfigObject)
             ++ Object_keys (own secondConfigObject)) in
  foldl (λ differences key,
    let value1 := prop_get firstConfigObject key in
    let value2 := prop_get secondConfigObject key in
    if value_strict_ne value1 undefined && value_strict_ne value2 undefined
       && value_strict_ne value1 value2
    then prop_set differences key
           (prop_define (prop_define [] firstConfigFile value1) secondConfigFile value2)
    else differences) [] allKeys.

(** ** Flattening *)

(** [parentKey ? parentKey + sep + key : key]: the empty string is falsy. *)
Definition joinKey (parentKey sep key : string) : string :=
  if decide (parentKey = "") then key else parentKey +:+ sep +:+ key.

(** The characters of a string primitive, which [for ... in] enumerates
    by index. *)
Fixpoint chars (s : string) : list string :=
  match s with
  | EmptyString => []
  | String c rest => String c "" :: chars rest
  end.

(** A JavaScript string is a sequence of UTF-16 code units, a string
    here a sequence of bytes: the two agree, and [chars] gives the
    one-unit strings [s[0]], [s[1]], ..., when every byte of the string
    is below 128. *)
Fixpoint is_ascii (s : string) : bool :=
  match s with
  | EmptyString => true
  | String (Ascii _ _ _ _ _ _ _ b7) rest => negb b7 && is_ascii rest
  end.

(** [flattenObj(obj, parentKey, sep)]. [for ... in] visits the properties
    of an object in order, the indices of an array as the strings ["0"],
    ["1"], ..., the indices of the characters of a string, and nothing for
    [undefined], [null], a boolean, a number or a [Date]. The test
    [typeof obj[key] === 'object' && obj[key] !== null] holds of dates,
    arrays and objects, and fails on every scalar. *)
Fixpoint flattenObj (obj : jsval) (parentKey sep : string) : list (string * scalar) :=
  match obj with
  | Object props =>
      (fix loop (props : list (string * jsval)) (result : list (string * scalar)) :=
         match props with
         | [] => result
         | (key, v) :: rest =>
             let newKey := joinKey parentKey sep key in
             loop rest
               match v with
               | Scalar s => prop_set result newKey s
               | _ => Object_assign result (flattenObj v newKey sep)
               end
         end) props []
  | Array items =>
      (fix loop (items : list jsval) (index : nat) (result : list (string * scalar)) :=
         match items with
         | [] => result
         | v :: rest =>
             let newKey := joinKey parentKey sep (pretty index) in
             loop rest (S index)
               match v with
               | Scalar s => prop_set result newKey s
               | _ => Object_assign result (flattenObj v newKey sep)
               end
         end) items 0 []
  | Scalar (SString s) =>
      foldl (λ result kv, prop_set result (joinKey parentKey sep kv.1) (SString kv.2))
        [] (imap (λ i c, (pretty i, c)) (chars s))
  | _ => []
  end.

(** Whether the object [flattenObj(obj)] returns still has
    [Object.prototype] as its prototype: the object starts as [{}], and
    loses its prototype when the loop assigns [null] to its [__proto__],
    which happens for a property [__proto__: null] of [obj] itself. *)
Definition flattenObj_inherits (obj : jsval) : bool :=
  match obj with
  | Object props =>
      negb (existsb (λ kv, bool_decide (kv.1 = "__proto__")
                           && match kv.2 with Scalar SNull => true | _ => false end)
              props)
  | _ => true
  end.

(** ** The host: file system, paths and the two parsing libraries

    [compare] reaches the outside world through [path], [fs], [dotenv]
    and [js-yaml]. [readFileSync] and [yaml_load] may throw, which is the
    left summand, holding the text of what was thrown. [dotenv.parse]
    accepts every text and returns string values only. *)
Record Host := {
  resolve : string → string;
  extname : string → string;
  existsSync : string → bool;
  readFileSync : string → string + string;
  dotenv_parse : string → list (string * string);
  yaml_load : string → string + jsval
}.

Record ConfigOptions := {
  keys : bool;
  values : bool
}.

(** ** Exceptions *)

(** The three exception classes of the program, and whatever else is
    thrown (by [readFileSync] or [yaml.load]), kept as its text. *)
Inductive exception :=
| FileCompareError
| FileNotFoundError (filePath : string)
| UnsupportedFileTypeError (ext : string)
| OtherError (text : string).

(** [`${e}`]: the name and the message of an [Error]. *)
Definition toString (e : exception) : string :=
  match e with
  | FileCompareError => "FileCompareError: Cannot compare dissimilar file"
  | FileNotFoundError _ => "FileNotFoundError: File Not Found"
  | UnsupportedFileTypeError _ => "UnsupportedFileTypeError: Unsupported File type"
  | OtherError text => text
  end.

(** [e instanceof FileNotFoundError || e instanceof UnsupportedFileTypeError
    || e instanceof FileCompareError], with [e.getMessage()]. *)
Definition getMessage (e : exception) : option string :=
  match e with
  | FileCompareError => Some "FileCompareError: Cannot compare dissimilar file"
  | FileNotFoundError filePath =>
      Some ("FileNotFoundError: File Not Found - File: " +:+ filePath)
  | UnsupportedFileTypeError ext =>
      Some ("UnsupportedFileTypeError: Unsupported File type - Type: " +:+ ext)
  | OtherError _ => None
  end.

(** The two lines of the [catch] block. *)
Definition known_error_line (msg : string) : string :=
  "Something went wrong: [" +:+ msg +:+ "]".
Definition unknown_error_line (thrown : string) : string :=
  "An unknown error occurred: [" +:+ thrown +:+ "]".

(** ** Traces *)

(** What [console.log] is called with, one constructor per call site (the
    four calls of [printKeyDifferences] and the loop of
    [printValueDifferences] count as one each). *)
Inductive message :=
| BothEmpty
| FileEmpty (file : string)
| KeyDifferences (result : CompareConfigKeysRecord)
| ValueDifferences (output : list (string * list (string * value)))
| NoValueDifferences.

Inductive event :=
| ExistsSync (path : string)
| ReadFileSync (path : string)
| DotenvParse (content : string)
| YamlLoad (content : string)
| ConsoleLog (m : message)
| ConsoleError (text : string)
| ProcessExit (code : Z).

(** A computation that logs events and either throws or returns. *)
Definition M (A : Type) : Type := list event * (exception + A).

#[global] Instance M_ret : MRet M := λ A a, ([], inr a).
#[global] Instance M_bind : MBind M := λ A B f m,
  match m.2 with
  | inl e => (m.1, inl e)
  | inr a => (m.1 ++ (f a).1, (f a).2)
  end.

Definition throw {A} (e : exception) : M A := ([], inl e).
Definition emit (ev : event) : M unit := ([ev], inr tt).

(** ** The methods of [CompareEnv] that touch the host *)

Section methods.
Context (h : Host) (firstConfigFile secondConfigFile : string)
        (options : ConfigOptions).

Definition checkIfBothFilesAreOfSameType (fileOne fileTwo : string) : M unit :=
  let fileOneExtName := extname h fileOne in
  let fileTwoExtName := extname h fileTwo in
  if bool_decide (fileOneExtName ≠ fileTwoExtName)
  then throw FileCompareError
  else mret tt.

Definition validateAndReturnResolvedFilePath (configFilePath : string)
  : M (string * string) :=
  let resolvedPath := resolve h configFilePath in
  emit (ExistsSync resolvedPath);;
  if negb (existsSync h resolvedPath)
  then throw (FileNotFoundError resolvedPath)
  else
    let ext := extname h resolvedPath in
    if bool_decide (ext ≠ ".env") && bool_decide (ext ≠ ".yaml")
       && bool_decide (ext ≠ ".yml")
    then throw (UnsupportedFileTypeError ext)
    else mret (resolvedPath, ext).

(** [fs.readFileSync(resolvedPath, 'utf8')]. *)
Definition readFile (resolvedPath : string) : M string :=
  emit (ReadFileSync resolvedPath);;
  match readFileSync h resolvedPath with
  | inl thrown => throw (OtherError thrown)
  | inr content => mret content
  end.

Definition parseFile (filePath : string) : M (list (string * scalar)) :=
  '(resolvedPath, ext) ← validateAndReturnResolvedFilePath filePath;
  if bool_decide (ext = ".env")
  then
    content ← readFile resolvedPath;
    emit (DotenvParse content);;
    mret (prod_map id SString <$> dotenv_parse h content)
  else
    content ← readFile resolvedPath;
    emit (YamlLoad content);;
    match yaml_load h content with
    | inl thrown => throw (OtherError thrown)
    | inr loaded => mret (flattenObj loaded "" ".")
    end.

(** Whether the object [parseFile] returns for [filePath] has
    [Object.prototype] as its prototype: [dotenv.parse] returns an object
    created as [{}], and so does [flattenObj] unless it drops the
    prototype. *)
Definition parsedInherits (filePath : string) : bool :=
  let resolvedPath := resolve h filePath in
  if bool_decide (extname h resolvedPath = ".env") then true
  else
    match readFileSync h resolvedPath with
    | inl _ => true
    | inr content =>
        match yaml_load h content with
        | inl _ => true
        | inr loaded => flattenObj_inherits loaded
        end
    end.

(** The object [parseFile] returned for [filePath], with its prototype. *)
Definition parsed (filePath : string) (obj : list (string * scalar)) : document :=
  {| own := obj; inherits := parsedInherits filePath |}.

Definition isEmpty {V} (obj : list (string * V)) : bool :=
  bool_decide (length (Object_keys obj) = 0).

(** Each [return] leaves this method only. *)
Definition checkIfAnyEnvironmentObjectIsEmpty
    (firstConfigObject secondConfigObject : list (string * scalar)) : M unit :=
  if isEmpty firstConfigObject && isEmpty secondConfigObject
  then emit (ConsoleLog BothEmpty)
  else if isEmpty firstConfigObject
  then emit (ConsoleLog (FileEmpty firstConfigFile))
  else if isEmpty secondConfigObject
  then emit (ConsoleLog (FileEmpty secondConfigFile))
  else mret tt.

Definition printKeyDifferences (result : CompareConfigKeysRecord) : M unit :=
  emit (ConsoleLog (KeyDifferences result)).

Definition printValueDifferences (output : list (string * list (string * value)))
  : M unit :=
  emit (ConsoleLog (ValueDifferences output)).

(** The [try] block of [compare]. *)
Definition compare_body : M unit :=
  checkIfBothFilesAreOfSameType firstConfigFile secondConfigFile;;
  firstConfigObject ← parseFile firstConfigFile;
  secondConfigObject ← parseFile secondConfigFile;
  checkIfAnyEnvironmentObjectIsEmpty firstConfigObject secondConfigObject;;
  let firstConfigObjectKeys := Object_keys firstConfigObject in
  let secondConfigObjectKeys := Object_keys secondConfigObject in
  if keys options then
    let compareResult := compareEnvKeys firstConfigObjectKeys secondConfigObjectKeys in
    printKeyDifferences compareResult
  else if values options then
    let configDifferences :=
      getValueDifferences firstConfigFile secondConfigFile
        (parsed firstConfigFile firstConfigObject)
        (parsed secondConfigFile secondConfigObject) in
    if bool_decide (0 < length (Object_keys configDifferences))
    then printValueDifferences configDifferences
    else emit (ConsoleLog NoValueDifferences)
  else mret tt.

(** The [catch] block of [compare]. *)
Definition compare_catch (e : exception) : list event :=
  [ConsoleError
     match getMessage e with
     | Some msg => known_error_line msg
     | None => unknown_error_line (toString e)
     end;
   ProcessExit 1].

(** [compare()]: everything the call does, in order. *)
Definition compare : list event :=
  match compare_body with
  | (trace, inr _) => trace
  | (trace, inl e) => trace ++ compare_catch e
  end.
End methods.

(** The exit status of the node process after the events of a run: the
    argument of the first [process.exit], or 0 when the program ends
    without one. *)
Fixpoint exit_status (trace : list event) : Z :=
  match trace with
  | [] => 0
  | ProcessExit code :: _ => code
  | _ :: rest => exit_status rest
  end.

(** ** The leaves of a document

    What the flattening is compared with: the scalars of a document, each
    with the path of property names and array indices that leads to it. *)
Fixpoint leaves (v : jsval) : list (list string * scalar) :=
  match v with
  | Scalar s => [([], s)]
  | DateObj _ => []
  | Array items =>
      (fix go (items : list jsval) (index : nat) :=
         match items with
         | [] => []
         | v :: rest => (prod_map (cons (pretty index)) id <$> leaves v) ++ go rest (S index)
         end) items 0
  | Object props =>
      (fix go (props : list (string * jsval)) :=
         match props with
         | [] => []
         | (key, v) :: rest => (prod_map (cons key) id <$> leaves v) ++ go rest
         end) props
  end.

(** The key [flattenObj] builds along a path, starting from [parentKey]. *)
Definition path_key (parentKey : string) (path : list string) : string :=
  foldl (λ parent key, joinKey parent "." key) parentKey path.

(** The flattening as the specification describes it: every leaf under
    the dot-joined key of its path. *)
Definition flat_leaves (parentKey : string) (v : jsval) : list (string * scalar) :=
  prod_map (path_key parentKey) id <$> leaves v.

Fixpoint has_dot (s : string) : bool :=
  match s with
  | EmptyString => false
  | String c rest => bool_decide (c = "."%char) || has_dot rest
  end.

(** A property name that is not empty, holds no separator and is not
    [__proto__]. *)
Definition plain_key (key : string) : bool :=
  negb (bool_decide (key = "")) && negb (has_dot key)
  && negb (bool_decide (key = "__proto__")).

(** Documents all of whose property names are plain, no object having two
    properties of the same name. *)
Fixpoint plain_keys (v : jsval) : bool :=
  match v with
  | Scalar _ | DateObj _ => true
  | Array items => forallb plain_keys items
  | Object props =>
      bool_decide (NoDup props.*1)
      && forallb (λ kv, plain_key kv.1 && plain_keys kv.2) props
  end.

(** ** A host given by tables, for running [compare] on examples *)

(** The text of [path] from its last dot on; this is [path.extname] on
    the file names used in the examples. *)
Fixpoint from_last_dot (path : string) : option string :=
  match path with
  | EmptyString => None
  | String c rest =>
      match from_last_dot rest with
      | Some ext => Some ext
      | None => if bool_decide (c = "."%char) then Some path else None
      end
  end.

Definition table_host (files : list (string * string))
    (envs : list (string * list (string * string)))
    (yamls : list (string * (string + jsval))) : Host :=
  {| resolve := λ p, "/cwd/" +:+ p;
     extname := λ p, default "" (from_last_dot p);
     existsSync := λ p, bool_decide (is_Some (prop_lookup files p));
     readFileSync := λ p,
       match prop_lookup files p with
       | Some content => inr content
       | None => inl "Error: ENOENT"
       end;
     dotenv_parse := λ content, default [] (prop_lookup envs content);
     yaml_load := λ content,
       default (inr (Scalar SUndefined)) (prop_lookup yamls content) |}.

(** ** The rule of the value comparison *)

(** The test of [getValueDifferences] on what the two reads give: both
    are not [undefined] and they are not strictly equal. *)
Definition differ_strictly (A B : document) (key : string) : Prop :=
  prop_get A key ≠ undefined ∧ prop_get B key ≠ undefined
  ∧ value_strict_eq (prop_get A key) (prop_get B key) = false.

(** The condition of the [if] in [getValueDifferences], and the object it
    stores, as functions of the key. *)
Definition valuesDiffer (A B : document) (key : string) : bool :=
  value_strict_ne (prop_get A key) undefined && value_strict_ne (prop_get B key) undefined
  && value_strict_ne (prop_get A key) (prop_get B key).

Definition difference (firstConfigFile secondConfigFile : string)
    (A B : document) (key : string) : list (string * value) :=
  prop_define (prop_define [] firstConfigFile (prop_get A key))
    secondConfigFile (prop_get B key).

(** ** The two loops of [flattenObj], by name *)

(** The [for ... in] loop over the properties of an object, started with
    [result]. *)
Fixpoint flattenProps (props : list (string * jsval)) (parentKey sep : string)
    (result : list (string * scalar)) : list (string * scalar) :=
  match props with
  | [] => result
  | (key, v) :: rest =>
      let newKey := joinKey parentKey sep key in
      flattenProps rest parentKey sep
        match v with
        | Scalar s => prop_set result newKey s
        | _ => Object_assign result (flattenObj v newKey sep)
        end
  end.

(** The same loop over the items of an array, from [index] on. *)
Fixpoint flattenItems (items : list jsval) (index : nat) (parentKey sep : string)
    (result : list (string * scalar)) : list (string * scalar) :=
  match items with
  | [] => result
  | v :: rest =>
      let newKey := joinKey parentKey sep (pretty index) in
      flattenItems rest (S index) parentKey sep
        match v with
        | Scalar s => prop_set result newKey s
        | _ => Object_assign result (flattenObj v newKey sep)
        end
  end.

(** An array seen as the object of its indices. *)
Definition indexed (index : nat) (items : list jsval) : list (string * jsval) :=
  imap (λ i v, (pretty (index + i), v)) items.

(** The leaves below each property, under the keys of their paths. *)
Definition flat_props (parentKey : string) (props : list (string * jsval))
  : list (string * scalar) :=
  props ≫= λ kv, flat_leaves (joinKey parentKey "." kv.1) kv.2.

Definition is_scalar (v : jsval) : bool :=
  match v with Scalar _ => true | _ => false end.

(** [key] is [base], or [base] followed by a dot and more. *)
Definition dot_tail (r : string) : Prop := r = "" ∨ ∃ r', r = String "." r'.
Definition extends (base key : string) : Prop := ∃ r, key = base +:+ r ∧ dot_tail r.

(** ** The specification's reading of the flattening *)

(** Every leaf other than [null] appears in the output. *)
Definition every_leaf_appears (doc : jsval) : Prop :=
  ∀ path s, (path, s) ∈ leaves doc → s ≠ SNull →
    ∃ key, prop_lookup (flattenObj doc "" ".") key = Some s.

(** No key of the output stands for two leaves. *)
Definition no_key_shared (doc : jsval) : Prop :=
  ∀ p s q t, (p, s) ∈ leaves doc → (q, t) ∈ leaves doc →
    path_key "" p = path_key "" q → p = q.

(** An array under [key] is kept as one value: no key [key.0], [key.1],
    ... is produced for it. *)
Definition array_kept_as_leaf (key : string) (items : list jsval) : Prop :=
  ∀ i : nat, joinKey key "." (pretty i)
             ∉ Object_keys (flattenObj (Object [(key, Array items)]) "" ".").

(** What the flattening of a document that is not a scalar comes to when
    its property names are plain: the leaves under the keys of their
    paths, every key once, each key an extension of the parent key. *)
Definition flattens_to_leaves (v : jsval) : Prop :=
  ∀ parentKey, plain_keys v = true → is_scalar v = false →
    flattenObj v parentKey "." = flat_leaves parentKey v
    ∧ NoDup (Object_keys (flat_leaves parentKey v))
    ∧ (parentKey ≠ "" →
       ∀ k, k ∈ Object_keys (flat_leaves parentKey v) → extends parentKey k).

(** The same for the value of one property, a scalar included. *)
Definition child_flattens (parentKey : string) (kv : string * jsval) : Prop :=
  let newKey := joinKey parentKey "." kv.1 in
  (is_scalar kv.2 = false → flattenObj kv.2 newKey "." = flat_leaves newKey kv.2)
  ∧ NoDup (Object_keys (flat_leaves newKey kv.2))
  ∧ (∀ k, k ∈ Object_keys (flat_leaves newKey kv.2) → extends newKey k).

(** ** How a run fails *)

(** The exception that reaches the [catch] block of [compare], if any. *)
Definition failure (h : Host) (firstConfigFile secondConfigFile : string)
    (options : ConfigOptions) : option exception :=
  match compare_body h firstConfigFile secondConfigFile options with
  | (_, inl e) => Some e
  | (_, inr _) => None
  end.

(** The error kinds of the specification. *)
Inductive error_kind :=
| FileNotFound
| UnsupportedFileType
| FormatMismatch
| ParseError
| UnknownError.

(** The kind under which the [catch] block reports an exception: the
    three classes it knows, and the unknown error for everything else. *)
Definition kind_of (e : exception) : error_kind :=
  match e with
  | FileCompareError => FormatMismatch
  | FileNotFoundError _ => FileNotFound
  | UnsupportedFileTypeError _ => UnsupportedFileType
  | OtherError _ => UnknownError
  end.

(** The events of reading and parsing, as opposed to output. *)
Definition is_access (ev : event) : bool :=
  match ev with
  | ExistsSync _ | ReadFileSync _ | DotenvParse _ | YamlLoad _ => true
  | _ => false
  end.

Definition is_value_output (ev : event) : bool :=
  match ev with
  | ConsoleLog (ValueDifferences _) | ConsoleLog NoValueDifferences => true
  | _ => false
  end.

(** What [checkIfAnyEnvironmentObjectIsEmpty] logs. *)
Definition empty_report (firstConfigFile secondConfigFile : string)
    (A B : list (string * scalar)) : list event :=
  (checkIfAnyEnvironmentObjectIsEmpty firstConfigFile secondConfigFile A B).1.

(** The specification's reading of a missing file: the run fails with
    [FileNotFound] and no file has been read or parsed. *)
Definition fails_before_any_parse (h : Host) (firstConfigFile secondConfigFile : string)
    (options : ConfigOptions) : Prop :=
  existsSync h (resolve h firstConfigFile) = false
  ∨ existsSync h (resolve h secondConfigFile) = false →
  kind_of <$> failure h firstConfigFile secondConfigFile options = Some FileNotFound
  ∧ ∀ ev, ev ∈ compare h firstConfigFile secondConfigFile options →
      match ev with
      | ReadFileSync _ | DotenvParse _ | YamlLoad _ => False
      | _ => True
      end.

(** The specification's reading of a file the YAML loader rejects: the
    run fails with the kind [ParseError]. *)
Definition rejected_text_is_ParseError (h : Host) (firstConfigFile secondConfigFile : string)
    (options : ConfigOptions) : Prop :=
  ∀ content thrown,
    readFileSync h (resolve h firstConfigFile) = inr content →
    yaml_load h content = inl thrown →
    kind_of <$> failure h firstConfigFile secondConfigFile options = Some ParseError.

(** ** Example hosts *)

(** Two YAML files of the same content, one named [.yaml], one [.yml]. *)
Definition yaml_yml_host : Host :=
  table_host [("/cwd/a.yaml", "port: 80"); ("/cwd/b.yml", "port: 80")] []
    [("port: 80", inr (Object [("port", Scalar (SNumber (Num 80)))]))].

(** Scenario 1 of the specification, and an empty file next to them. *)
Definition env_host : Host :=
  table_host [("/cwd/a.env", "FOO=1
BAR=2"); ("/cwd/b.env", "FOO=1
BAZ=3"); ("/cwd/empty.env", "")]
    [("FOO=1
BAR=2", [("FOO", "1"); ("BAR", "2")]);
     ("FOO=1
BAZ=3", [("FOO", "1"); ("BAZ", "3")]);
     ("", [])] [].

(** Two YAML files with the same port, a number in one and a quoted
    string in the other. *)
Definition port_host : Host :=
  table_host [("/cwd/a.yaml", "port: 80"); ("/cwd/b.yaml", "port: '80'")] []
    [("port: 80", inr (Object [("port", Scalar (SNumber (Num 80)))]));
     ("port: '80'", inr (Object [("port", Scalar (SString "80"))]))].

(** Two [.env] files, the second with a variable named [toString]. *)
Definition toString_host : Host :=
  table_host [("/cwd/a.env", "FOO=1"); ("/cwd/b.env", "FOO=1
toString=x")]
    [("FOO=1", [("FOO", "1")]);
     ("FOO=1
toString=x", [("FOO", "1"); ("toString", "x")])] [].

(** A YAML file the loader rejects. *)
Definition broken_yaml_host : Host :=
  table_host [("/cwd/a.yaml", "a: [1"); ("/cwd/b.yaml", "a: 1")] []
    [("a: [1", inl "YAMLException: unexpected end of the stream within a flow collection");
     ("a: 1", inr (Object [("a", Scalar (SNumber (Num 1)))]))].

(** ** Reading a list of entries like an object built from it *)


(** ** The texts of [printKeyDifferences] *)

Definition determineMessageByCheckingArraySize (array : list string) : string :=
  if bool_decide (length array = 0) then "No missing key in config file"
  else if bool_decide (length array = 1) then "This key is missing from"
  else "These keys are missing from".

(** The separator of [join('\n\n')]. *)
Definition blank_line : string := String "010"%char (String "010"%char "").

(** [arg.map((key, index) => `${index++}. ${key}`).join('\n\n')]: the
    value of [index++] is [index], the position of the key in [arg]. *)
Definition formatKeysAsEnumerated (arg : list string) : string :=
  String.concat blank_line (imap (λ (index : nat) key, pretty index +:+ ". " +:+ key) arg).

(** ** Output of errors *)

Definition is_error_output (ev : event) : bool :=
  match ev with
  | ConsoleError _ | ProcessExit _ => true
  | _ => false
  end.

(** Two files of an extension the program does not know. *)
Definition txt_host : Host :=
  table_host [("/cwd/a.txt", "FOO=1"); ("/cwd/b.txt", "FOO=2")]
    [("FOO=1", [("FOO", "1")]); ("FOO=2", [("FOO", "2")])] [].

(** Two [.env] files with one value that differs. *)
Definition values_host : Host :=
  table_host [("/cwd/a.env", "FOO=1"); ("/cwd/b.env", "FOO=2")]
    [("FOO=1", [("FOO", "1")]); ("FOO=2", [("FOO", "2")])] [].

(** * Properties *)

(** ** Sets *)

Lemma elem_of_Set_add s x y : y ∈ Set_add s x ↔ y ∈ s ∨ y = x.
Proof.
  unfold Set_add. case_bool_decide.
  - split; [by left|]. by intros [?| ->].
  - by rewrite elem_of_app, list_elem_of_singleton.
Qed.

Lemma elem_of_foldl_Set_add array s y :
  y ∈ foldl Set_add s array ↔ y ∈ s ∨ y ∈ array.
Proof.
  revert s. induction array as [|x array IH]; intros s; simpl.
  - rewrite elem_of_nil. tauto.
  - rewrite IH, elem_of_Set_add, elem_of_cons. tauto.
Qed.

Lemma elem_of_new_Set array y : y ∈ new_Set array ↔ y ∈ array.
Proof. unfold new_Set. rewrite elem_of_foldl_Set_add, elem_of_nil. tauto. Qed.

Lemma NoDup_Set_add s x : NoDup s → NoDup (Set_add s x).
Proof.
  intros Hs. unfold Set_add. case_bool_decide; [done|].
  apply NoDup_app. split_and!; [done| |apply NoDup_singleton].
  intros y Hy ->%list_elem_of_singleton. done.
Qed.

Lemma NoDup_new_Set array : NoDup (new_Set array).
Proof.
  unfold new_Set. generalize (NoDup_nil_2 (A:=string)).
  generalize (@nil string). induction array as [|x array IH]; intros s Hs; simpl.
  - done.
  - by apply IH, NoDup_Set_add.
Qed.

Lemma Set_has_new_Set array item : Set_has (new_Set array) item = bool_decide (item ∈ array).
Proof. unfold Set_has. apply bool_decide_ext, elem_of_new_Set. Qed.

(** ** Key comparison *)

Lemma elem_of_missingKeysInFirstConfigFile A B k :
  k ∈ missingKeysInFirstConfigFile (compareEnvKeys A B) ↔ k ∈ B ∧ k ∉ A.
Proof.
  simpl. rewrite list_elem_of_filter, Set_has_new_Set.
  rewrite negb_True, bool_decide_spec. tauto.
Qed.

Lemma elem_of_missingKeysInSecondConfigFile A B k :
  k ∈ missingKeysInSecondConfigFile (compareEnvKeys A B) ↔ k ∈ A ∧ k ∉ B.
Proof.
  simpl. rewrite list_elem_of_filter, Set_has_new_Set.
  rewrite negb_True, bool_decide_spec. tauto.
Qed.

Lemma filter_not_member (A : list string) :
  filter (λ item, negb (Set_has (new_Set A) item)) A = [].
Proof.
  apply elem_of_nil_inv. intros k.
  rewrite list_elem_of_filter, Set_has_new_Set, negb_True, bool_decide_spec. tauto.
Qed.

(** C1. For key lists [A] and [B] without duplicates, [compareEnvKeys A B]
    returns as [missingKeysInFirstConfigFile] exactly the keys that are in
    [B] and not in [A], and as [missingKeysInSecondConfigFile] exactly the
    keys that are in [A] and not in [B], each of them once; comparing a
    list with itself returns two empty lists. *)
Theorem compareEnvKeys_correct (A B : list string) :
  NoDup A → NoDup B →
  let result := compareEnvKeys A B in
  (∀ k, k ∈ missingKeysInFirstConfigFile result ↔ k ∈ B ∧ k ∉ A)
  ∧ (∀ k, k ∈ missingKeysInSecondConfigFile result ↔ k ∈ A ∧ k ∉ B)
  ∧ NoDup (missingKeysInFirstConfigFile result)
  ∧ NoDup (missingKeysInSecondConfigFile result)
  ∧ compareEnvKeys A A
    = {| missingKeysInFirstConfigFile := [];
         missingKeysInSecondConfigFile := [] |}.
Proof.
  intros HA HB result. split_and!.
  - intros k. apply elem_of_missingKeysInFirstConfigFile.
  - intros k. apply elem_of_missingKeysInSecondConfigFile.
  - by apply NoDup_filter.
  - by apply NoDup_filter.
  - unfold compareEnvKeys. by rewrite filter_not_member.
Qed.

Lemma compareEnvKeys_correct_witness :
  let A := ["FOO"; "BAR"] in
  let B := ["FOO"; "BAZ"] in
  let result := compareEnvKeys A B in
  (∀ k, k ∈ missingKeysInFirstConfigFile result ↔ k ∈ B ∧ k ∉ A)
  ∧ (∀ k, k ∈ missingKeysInSecondConfigFile result ↔ k ∈ A ∧ k ∉ B)
  ∧ NoDup (missingKeysInFirstConfigFile result)
  ∧ NoDup (missingKeysInSecondConfigFile result)
  ∧ compareEnvKeys A A
    = {| missingKeysInFirstConfigFile := [];
         missingKeysInSecondConfigFile := [] |}.
Proof.
  apply (compareEnvKeys_correct ["FOO"; "BAR"] ["FOO"; "BAZ"]);
    apply (bool_decide_unpack (NoDup _)); vm_compute; exact I.
Defined.

(** ** Objects *)

Section object_lemmas.
Context {V : Type}.
Implicit Types (obj : list (string * V)) (key : string) (v : V).

Lemma prop_lookup_prop_define obj key v key' :
  prop_lookup (prop_define obj key v) key'
  = if decide (key = key') then Some v else prop_lookup obj key'.
Proof.
  induction obj as [|[k w] obj IH]; simpl.
  - done.
  - destruct (decide (k = key)) as [->|Hne]; simpl.
    + by destruct (decide (key = key')).
    + rewrite IH. destruct (decide (k = key')) as [->|]; [|done].
      by rewrite decide_False by congruence.
Qed.

Lemma prop_lookup_None obj key : prop_lookup obj key = None ↔ key ∉ Object_keys obj.
Proof.
  unfold Object_keys. induction obj as [|[k w] obj IH]; simpl.
  - split; [intros _; apply not_elem_of_nil|done].
  - rewrite not_elem_of_cons. destruct (decide (k = key)) as [->|Hne].
    + split; [done|]. by intros [? _].
    + rewrite IH. split; [by intros ?; split|]. by intros [_ ?].
Qed.

Lemma prop_lookup_is_Some obj key :
  is_Some (prop_lookup obj key) ↔ key ∈ Object_keys obj.
Proof.
  rewrite <-not_eq_None_Some, prop_lookup_None.
  split; [apply dec_stable|by intros ? ?].
Qed.

(** Defining a property that is not there yet adds it at the end. *)
Lemma prop_define_fresh obj key v :
  key ∉ Object_keys obj → prop_define obj key v = obj ++ [(key, v)].
Proof.
  unfold Object_keys. induction obj as [|[k w] obj IH]; simpl; [done|].
  rewrite not_elem_of_cons. intros [Hne Hnotin].
  rewrite decide_False by congruence. by rewrite IH.
Qed.

Lemma prop_set_other obj key v :
  key ≠ "__proto__" → prop_set obj key v = prop_define obj key v.
Proof. intros Hne. unfold prop_set. rewrite decide_False; [done|]. by intros [? _]. Qed.

(** An assignment to [__proto__] leaves the properties as they are. *)
Lemma prop_set_proto obj v :
  "__proto__" ∉ Object_keys obj → prop_set obj "__proto__" v = obj.
Proof. intros Hnotin. unfold prop_set. by rewrite decide_True. Qed.

(** Setting a property that is not there yet adds it at the end. *)
Lemma prop_set_fresh obj key v :
  key ∉ Object_keys obj → key ≠ "__proto__" → prop_set obj key v = obj ++ [(key, v)].
Proof. intros Hnotin Hne. by rewrite prop_set_other, prop_define_fresh. Qed.

Lemma prop_lookup_prop_set obj key v key' :
  "__proto__" ∉ Object_keys obj →
  prop_lookup (prop_set obj key v) key'
  = if decide (key = key' ∧ key ≠ "__proto__") then Some v else prop_lookup obj key'.
Proof.
  intros Hnotin. destruct (decide (key = "__proto__")) as [->|Hne].
  - rewrite prop_set_proto by done. rewrite decide_False; [done|]. by intros [_ ?].
  - rewrite prop_set_other, prop_lookup_prop_define by done.
    destruct (decide (key = key')) as [->|Hne'].
    + by rewrite decide_True.
    + rewrite decide_False; [done|]. by intros [? _].
Qed.

(** Assigning properties none of which is there yet, nor twice in the
    source, appends them in order. *)
Lemma Object_assign_fresh (target source : list (string * V)) :
  NoDup (Object_keys (target ++ source)) →
  "__proto__" ∉ Object_keys source →
  Object_assign target source = target ++ source.
Proof.
  unfold Object_assign, Object_keys.
  revert target. induction source as [|[k v] source IH]; intros target Hnd Hproto; simpl.
  - by rewrite app_nil_r.
  - rewrite fmap_cons in Hproto. apply not_elem_of_cons in Hproto as [Hk Hproto].
    rewrite prop_set_fresh.
    + rewrite IH; [by rewrite <-app_assoc|by rewrite <-app_assoc|done].
    + rewrite fmap_app in Hnd. apply NoDup_app in Hnd as (_ & Hdisj & _).
      intros Hin. apply (Hdisj k Hin). simpl. apply list_elem_of_here.
    + simpl in Hk. congruence.
Qed.
End object_lemmas.

(** ** Strict equality *)

Lemma strict_eq_sym a b : strict_eq a b = strict_eq b a.
Proof.
  destruct a as [| | |[|?]|], b as [| | |[|?]|]; simpl; try done;
    apply bool_decide_ext; split; congruence.
Qed.

Lemma strict_eq_refl a : a ≠ SNumber NaN → strict_eq a a = true.
Proof.
  destruct a as [| | |[|?]|]; simpl; intros Hnan; try done;
    by apply bool_decide_eq_true.
Qed.

Lemma value_strict_eq_sym a b : value_strict_eq a b = value_strict_eq b a.
Proof.
  destruct a, b; simpl; try done; [apply strict_eq_sym|].
  apply bool_decide_ext; split; congruence.
Qed.

Lemma value_strict_eq_refl a : a ≠ Held (SNumber NaN) → value_strict_eq a a = true.
Proof.
  destruct a as [s|name]; simpl; intros Hnan.
  - apply strict_eq_refl. congruence.
  - by apply bool_decide_eq_true.
Qed.

Lemma value_strict_ne_undefined a : value_strict_ne a undefined = true ↔ a ≠ undefined.
Proof.
  unfold value_strict_ne, undefined.
  destruct a as [[| | |[|?]|]|name]; simpl; split; done.
Qed.

(** ** Reading a property *)

Lemma prop_get_own (obj : document) key s :
  prop_lookup (own obj) key = Some s → prop_get obj key = Held s.
Proof. intros Hs. unfold prop_get. by rewrite Hs. Qed.

Lemma prop_get_inherited (obj : document) key :
  prop_lookup (own obj) key = None → inherits obj = true →
  key ∈ Object_prototype_names →
  prop_get obj key = Inherited key.
Proof.
  intros Hnone Hproto Hin. unfold prop_get.
  by rewrite Hnone, Hproto, bool_decide_eq_true_2.
Qed.

Lemma prop_get_missing (obj : document) key :
  prop_lookup (own obj) key = None →
  inherits obj = false ∨ key ∉ Object_prototype_names →
  prop_get obj key = undefined.
Proof.
  intros Hnone Hcase. unfold prop_get. rewrite Hnone.
  destruct Hcase as [->|Hin]; [done|].
  by rewrite bool_decide_eq_false_2, andb_false_r.
Qed.

(** ** Value comparison *)

Section value_differences.
Context (f1 f2 : string) (A B : document).

Lemma valuesDiffer_spec key : valuesDiffer A B key = true ↔ differ_strictly A B key.
Proof.
  unfold valuesDiffer, differ_strictly.
  rewrite !andb_true_iff, !value_strict_ne_undefined.
  unfold value_strict_ne. rewrite negb_true_iff. tauto.
Qed.

(** A key that neither document has itself reads the same on both. *)
Lemma valuesDiffer_owned key :
  valuesDiffer A B key = true →
  key ∈ Object_keys (own A) ∨ key ∈ Object_keys (own B).
Proof.
  intros (HA & HB & Hne)%valuesDiffer_spec.
  destruct (prop_lookup (own A) key) as [a|] eqn:Ha.
  { left. apply prop_lookup_is_Some. by rewrite Ha. }
  destruct (prop_lookup (own B) key) as [b|] eqn:Hb.
  { right. apply prop_lookup_is_Some. by rewrite Hb. }
  exfalso. unfold prop_get in HA, HB, Hne. rewrite Ha in HA, Hne. rewrite Hb in HB, Hne.
  destruct (inherits A && bool_decide (key ∈ Object_prototype_names)); [|done].
  destruct (inherits B && bool_decide (key ∈ Object_prototype_names)); [|done].
  simpl in Hne. by rewrite bool_decide_eq_true_2 in Hne.
Qed.

Lemma getValueDifferences_unfold :
  getValueDifferences f1 f2 A B
  = foldl (λ differences key,
      if valuesDiffer A B key
      then prop_set differences key (difference f1 f2 A B key)
      else differences) [] (new_Set (Object_keys (own A) ++ Object_keys (own B))).
Proof. reflexivity. Qed.

Lemma differences_no_proto keys (differences : list (string * list (string * value))) :
  "__proto__" ∉ Object_keys differences →
  "__proto__" ∉ Object_keys
    (foldl (λ differences key,
       if valuesDiffer A B key
       then prop_set differences key (difference f1 f2 A B key)
       else differences) differences keys).
Proof.
  revert differences. induction keys as [|k keys IH]; intros differences Hproto; [done|].
  simpl. apply IH. destruct (valuesDiffer A B k); [|done].
  destruct (decide (k = "__proto__")) as [->|Hne].
  - by rewrite prop_set_proto.
  - rewrite prop_set_other by done. intros Hin%prop_lookup_is_Some.
    rewrite prop_lookup_prop_define, decide_False in Hin by done.
    by apply prop_lookup_is_Some in Hin.
Qed.

Lemma differences_lookup keys (differences : list (string * list (string * value))) key :
  "__proto__" ∉ Object_keys differences →
  prop_lookup
    (foldl (λ differences key,
       if valuesDiffer A B key
       then prop_set differences key (difference f1 f2 A B key)
       else differences) differences keys) key
  = if bool_decide (key ∈ keys) && valuesDiffer A B key
       && negb (bool_decide (key = "__proto__"))
    then Some (difference f1 f2 A B key)
    else prop_lookup differences key.
Proof.
  revert differences. induction keys as [|k keys IH]; intros differences Hproto; simpl.
  - done.
  - rewrite IH.
    2:{ apply (differences_no_proto [k]), Hproto. }
    destruct (decide (k = key)) as [->|Hne].
    + rewrite (bool_decide_eq_true_2 (key ∈ key :: keys)) by apply list_elem_of_here.
      simpl. destruct (valuesDiffer A B key) eqn:Hd.
      * rewrite prop_lookup_prop_set by done.
        destruct (decide (key = "__proto__")) as [->|Hkey].
        -- rewrite !andb_false_r. rewrite decide_False; [done|]. by intros [_ ?].
        -- rewrite (bool_decide_eq_false_2 (key = "__proto__")) by done.
           rewrite decide_True by done. by destruct (bool_decide (key ∈ keys)).
      * by rewrite andb_false_r.
    + assert (bool_decide (key ∈ k :: keys) = bool_decide (key ∈ keys)) as ->.
      { apply bool_decide_ext. rewrite elem_of_cons.
        split; [intros [?|?]; [congruence|done]|by right]. }
      destruct (bool_decide (key ∈ keys) && valuesDiffer A B key
                && negb (bool_decide (key = "__proto__"))); [done|].
      destruct (valuesDiffer A B k); [|done].
      rewrite prop_lookup_prop_set by done.
      rewrite decide_False; [done|]. by intros [? _].
Qed.

Lemma valuesDiffer_in_allKeys key :
  valuesDiffer A B key = true →
  key ∈ new_Set (Object_keys (own A) ++ Object_keys (own B)).
Proof.
  intros Hd%valuesDiffer_owned. by apply elem_of_new_Set, elem_of_app.
Qed.

Lemma getValueDifferences_lookup key :
  prop_lookup (getValueDifferences f1 f2 A B) key
  = if valuesDiffer A B key && negb (bool_decide (key = "__proto__"))
    then Some (difference f1 f2 A B key) else None.
Proof.
  rewrite getValueDifferences_unfold, differences_lookup by apply not_elem_of_nil.
  simpl. destruct (valuesDiffer A B key) eqn:Hd.
  - by rewrite bool_decide_eq_true_2 by by apply valuesDiffer_in_allKeys.
  - by rewrite andb_false_r.
Qed.

Lemma elem_of_getValueDifferences key :
  key ∈ Object_keys (getValueDifferences f1 f2 A B)
  ↔ key ≠ "__proto__" ∧ differ_strictly A B key.
Proof.
  rewrite <-prop_lookup_is_Some, getValueDifferences_lookup, <-valuesDiffer_spec.
  destruct (valuesDiffer A B key); simpl.
  - case_bool_decide as Hkey; simpl.
    + split; [by intros [? ?]|]. by intros [? _].
    + split; [done|]. by eexists.
  - split; [by intros [? ?]|]. by intros [_ ?].
Qed.

Lemma difference_two_files key :
  f1 ≠ f2 →
  difference f1 f2 A B key = [(f1, prop_get A key); (f2, prop_get B key)].
Proof.
  intros Hne. unfold difference. simpl. by rewrite decide_False.
Qed.
End value_differences.

Lemma differ_strictly_sym A B key : differ_strictly A B key ↔ differ_strictly B A key.
Proof. unfold differ_strictly. rewrite (value_strict_eq_sym (prop_get A key)). tauto. Qed.

Lemma valuesDiffer_self A key :
  prop_get A key ≠ Held (SNumber NaN) → valuesDiffer A A key = false.
Proof.
  intros Hnan. unfold valuesDiffer, value_strict_ne at 3.
  rewrite value_strict_eq_refl by done. apply andb_false_r.
Qed.

Lemma getValueDifferences_self f1 f2 A :
  (∀ key, prop_get A key ≠ Held (SNumber NaN)) → getValueDifferences f1 f2 A A = [].
Proof.
  intros Hnan. rewrite getValueDifferences_unfold.
  generalize (new_Set (Object_keys (own A) ++ Object_keys (own A))).
  intros keys. induction keys as [|k keys IH]; simpl; [done|].
  by rewrite valuesDiffer_self.
Qed.

(** C2, on the code. [getValueDifferences] compares what the two reads
    [firstConfigObject[key]] and [secondConfigObject[key]] give with
    [!==], without converting them to strings, and the reads go through
    the prototype chain. So a key whose value is a number in one
    document and a string in the other is reported whatever the string,
    also when the number prints as that string; and a key that only the
    second document has, and that names a member of [Object.prototype]
    such as [toString], is read on the first document as that member and
    reported, with the member as the value of the document that does not
    define it. *)
Theorem getValueDifferences_strict_on_raw_reads (f1 f2 : string)
    (A B : document) (key : string) :
  key ≠ "__proto__" → f1 ≠ f2 →
  (∀ n s,
     prop_lookup (own A) key = Some (SNumber n) →
     prop_lookup (own B) key = Some (SString s) →
     ∃ d, prop_lookup (getValueDifferences f1 f2 A B) key = Some d
          ∧ d ≡ₚ [(f1, Held (SNumber n)); (f2, Held (SString s))])
  ∧ (∀ b,
     key ∈ Object_prototype_names → inherits A = true →
     prop_lookup (own A) key = None →
     prop_lookup (own B) key = Some (SString b) →
     ∃ d, prop_lookup (getValueDifferences f1 f2 A B) key = Some d
          ∧ d ≡ₚ [(f1, Inherited key); (f2, Held (SString b))]).
Proof.
  intros Hproto Hne. split.
  - intros n s HA HB.
    assert (valuesDiffer A B key = true) as Hd.
    { unfold valuesDiffer.
      rewrite (prop_get_own A _ (SNumber n)), (prop_get_own B _ (SString s)) by done.
      by destruct n. }
    rewrite getValueDifferences_lookup, Hd, bool_decide_eq_false_2 by done. simpl.
    rewrite difference_two_files by done.
    rewrite (prop_get_own A _ (SNumber n)), (prop_get_own B _ (SString s)) by done.
    by eexists.
  - intros b Hname Hinh HA HB.
    assert (valuesDiffer A B key = true) as Hd.
    { apply valuesDiffer_spec. unfold differ_strictly.
      by rewrite (prop_get_inherited A), (prop_get_own B _ (SString b)). }
    rewrite getValueDifferences_lookup, Hd, bool_decide_eq_false_2 by done. simpl.
    rewrite difference_two_files by done.
    rewrite (prop_get_inherited A), (prop_get_own B _ (SString b)) by done.
    by eexists.
Qed.

Lemma getValueDifferences_strict_on_raw_reads_witness :
  (∃ d, prop_lookup (getValueDifferences "a.yaml" "b.yaml"
                       {| own := [("port", SNumber (Num 80))]; inherits := true |}
                       {| own := [("port", SString "80")]; inherits := true |}) "port"
        = Some d
        ∧ d ≡ₚ [("a.yaml", Held (SNumber (Num 80))); ("b.yaml", Held (SString "80"))])
  ∧ (∃ d, prop_lookup (getValueDifferences "a.env" "b.env"
                         {| own := [("FOO", SString "1")]; inherits := true |}
                         {| own := [("FOO", SString "1"); ("toString", SString "x")];
                            inherits := true |}) "toString"
          = Some d
          ∧ d ≡ₚ [("a.env", Inherited "toString"); ("b.env", Held (SString "x"))]).
Proof.
  split.
  - by apply (proj1 (getValueDifferences_strict_on_raw_reads "a.yaml" "b.yaml"
                       _ _ "port" ltac:(done) ltac:(done))).
  - apply (proj2 (getValueDifferences_strict_on_raw_reads "a.env" "b.env"
                    _ _ "toString" ltac:(done) ltac:(done))); try done.
    apply (bool_decide_unpack _). vm_compute. exact I.
Defined.

(** The two runs with [--values]: the port is printed as a difference
    between [port: 80] and [port: '80'], and [toString] as a difference
    between a file that does not define it and one that does. *)
Example compare_values_number_and_string :
  compare port_host "a.yaml" "b.yaml" {| keys := false; values := true |}
  = [ExistsSync "/cwd/a.yaml"; ReadFileSync "/cwd/a.yaml"; YamlLoad "port: 80";
     ExistsSync "/cwd/b.yaml"; ReadFileSync "/cwd/b.yaml"; YamlLoad "port: '80'";
     ConsoleLog (ValueDifferences
       [("port", [("a.yaml", Held (SNumber (Num 80)));
                  ("b.yaml", Held (SString "80"))])])].
Proof. vm_compute. reflexivity. Qed.

Example compare_values_inherited_toString :
  compare toString_host "a.env" "b.env" {| keys := false; values := true |}
  = [ExistsSync "/cwd/a.env"; ReadFileSync "/cwd/a.env"; DotenvParse "FOO=1";
     ExistsSync "/cwd/b.env"; ReadFileSync "/cwd/b.env"; DotenvParse "FOO=1
toString=x";
     ConsoleLog (ValueDifferences
       [("toString", [("a.env", Inherited "toString");
                      ("b.env", Held (SString "x"))])])].
Proof. vm_compute. reflexivity. Qed.

(** ** Flattening: the loops *)

Lemma flattenObj_Object props parentKey sep :
  flattenObj (Object props) parentKey sep = flattenProps props parentKey sep [].
Proof.
  simpl. generalize (@nil (string * scalar)).
  induction props as [|[key v] props IH]; intros result; simpl; [done|].
  apply IH.
Qed.

Lemma flattenObj_Array items parentKey sep :
  flattenObj (Array items) parentKey sep = flattenItems items 0 parentKey sep [].
Proof.
  simpl. generalize (@nil (string * scalar)) 0.
  induction items as [|v items IH]; intros result index; simpl; [done|].
  apply IH.
Qed.

Lemma indexed_cons index v items :
  indexed index (v :: items) = (pretty index, v) :: indexed (S index) items.
Proof.
  unfold indexed. simpl. rewrite Nat.add_0_r. f_equal.
  apply imap_ext. intros i x _. simpl. f_equal. f_equal. lia.
Qed.

Lemma flattenItems_indexed items index parentKey sep result :
  flattenItems items index parentKey sep result
  = flattenProps (indexed index items) parentKey sep result.
Proof.
  revert index result. induction items as [|v items IH]; intros index result.
  - done.
  - rewrite indexed_cons. simpl. apply IH.
Qed.

(** An array is flattened as the object whose properties are its indices. *)
Lemma flattenObj_Array_indexed items parentKey sep :
  flattenObj (Array items) parentKey sep
  = flattenObj (Object (indexed 0 items)) parentKey sep.
Proof.
  by rewrite flattenObj_Array, flattenObj_Object, flattenItems_indexed.
Qed.

(** ** Leaves *)

Lemma leaves_Object props :
  leaves (Object props) = props ≫= λ kv, prod_map (cons kv.1) id <$> leaves kv.2.
Proof.
  simpl. induction props as [|[key v] props IH]; simpl; [done|].
  by rewrite IH.
Qed.

Lemma leaves_Array items : leaves (Array items) = leaves (Object (indexed 0 items)).
Proof.
  rewrite leaves_Object. simpl. generalize 0.
  induction items as [|v items IH]; intros index; [done|].
  rewrite indexed_cons. simpl. by rewrite IH.
Qed.

Lemma flat_leaves_Scalar parentKey s : flat_leaves parentKey (Scalar s) = [(parentKey, s)].
Proof. done. Qed.

Lemma flat_leaves_Object parentKey props :
  flat_leaves parentKey (Object props) = flat_props parentKey props.
Proof.
  unfold flat_leaves, flat_props. rewrite leaves_Object.
  induction props as [|[key v] props IH]; [done|].
  rewrite !bind_cons, fmap_app, IH. f_equal.
  rewrite <-list_fmap_compose. apply list_fmap_ext. by intros _ [p s] _.
Qed.

Lemma flat_leaves_Array parentKey items :
  flat_leaves parentKey (Array items) = flat_props parentKey (indexed 0 items).
Proof.
  rewrite <-flat_leaves_Object. unfold flat_leaves. by rewrite leaves_Array.
Qed.

(** ** Keys without dots *)

Lemma string_app_cons c (s1 s2 : string) : String c s1 +:+ s2 = String c (s1 +:+ s2).
Proof. reflexivity. Qed.

Lemma string_app_nil_l (s : string) : "" +:+ s = s.
Proof. reflexivity. Qed.

Lemma string_app_nil_r (s : string) : s +:+ "" = s.
Proof. induction s as [|c s IH]; [done|]. by rewrite string_app_cons, IH. Qed.

Lemma string_app_assoc (s1 s2 s3 : string) : (s1 +:+ s2) +:+ s3 = s1 +:+ (s2 +:+ s3).
Proof. induction s1 as [|c s1 IH]; [done|]. by rewrite !string_app_cons, IH. Qed.

(** A string is cut in one way only into a part without dots and a rest
    that is empty or starts with a dot. *)
Lemma dot_tail_split k k' r r' :
  has_dot k = false → has_dot k' = false → dot_tail r → dot_tail r' →
  k +:+ r = k' +:+ r' → k = k'.
Proof.
  revert k'. induction k as [|c k IH]; intros [|c' k'];
    rewrite ?string_app_cons, ?string_app_nil_l; simpl.
  - done.
  - intros _ [Hc _]%orb_false_elim [->|[r0 ->]] _ Heq; [done|].
    injection Heq as <- _. by rewrite bool_decide_eq_true_2 in Hc.
  - intros [Hc _]%orb_false_elim _ _ [->|[r0 ->]] Heq; [done|].
    injection Heq as -> _. by rewrite bool_decide_eq_true_2 in Hc.
  - intros [_ Hk]%orb_false_elim [_ Hk']%orb_false_elim Hr Hr' Heq.
    injection Heq as -> Heq. f_equal. by apply IH.
Qed.

Lemma joinKey_nonempty parentKey key : key ≠ "" → joinKey parentKey "." key ≠ "".
Proof.
  unfold joinKey. destruct (decide (parentKey = "")); [done|].
  intros _. by destruct parentKey.
Qed.

Lemma extends_refl base : extends base base.
Proof. exists "". split; [by rewrite string_app_nil_r|by left]. Qed.

(** Below a parent key that is not empty, what extends the key of a child
    extends the parent key. *)
Lemma extends_joinKey parentKey key k :
  parentKey ≠ "" → extends (joinKey parentKey "." key) k → extends parentKey k.
Proof.
  intros Hne (r & -> & _). unfold joinKey. rewrite decide_False by done.
  exists ("." +:+ key +:+ r). split.
  - by rewrite !string_app_assoc.
  - right. by eexists.
Qed.

(** The keys of two properties with different plain names have no common
    extension. *)
Lemma extends_joinKey_inj parentKey key1 key2 k :
  plain_key key1 = true → plain_key key2 = true →
  extends (joinKey parentKey "." key1) k → extends (joinKey parentKey "." key2) k →
  key1 = key2.
Proof.
  unfold plain_key. rewrite !andb_true_iff, !negb_true_iff.
  intros [[_ H1] _] [[_ H2] _] (r1 & -> & Hr1) (r2 & Heq & Hr2).
  unfold joinKey in Heq. destruct (decide (parentKey = "")).
  - exact (dot_tail_split key1 key2 r1 r2 H1 H2 Hr1 Hr2 Heq).
  - rewrite !string_app_assoc in Heq.
    apply (inj (String.app parentKey)) in Heq.
    rewrite !string_app_cons, !string_app_nil_l in Heq.
    injection Heq as Heq.
    exact (dot_tail_split key1 key2 r1 r2 H1 H2 Hr1 Hr2 Heq).
Qed.

Lemma has_dot_app (s1 s2 : string) : has_dot (s1 +:+ s2) = has_dot s1 || has_dot s2.
Proof.
  induction s1 as [|c s1 IH]; [done|].
  rewrite string_app_cons. simpl. by rewrite IH, orb_assoc.
Qed.

(** No key built from a plain name is [__proto__]. *)
Lemma extends_joinKey_not_proto parentKey key :
  plain_key key = true → ¬ extends (joinKey parentKey "." key) "__proto__".
Proof.
  unfold plain_key. rewrite !andb_true_iff, !negb_true_iff.
  intros [[_ Hdot] Hproto%bool_decide_eq_false] (r & Heq & Hr).
  assert (has_dot (joinKey parentKey "." key +:+ r) = false) as Hnone
    by by rewrite <-Heq.
  rewrite has_dot_app in Hnone. apply orb_false_elim in Hnone as [Hjoin Hrdot].
  unfold joinKey in Heq, Hjoin. destruct (decide (parentKey = "")).
  - destruct Hr as [->|[r' ->]]; [|done].
    rewrite string_app_nil_r in Heq. by apply Hproto.
  - rewrite !has_dot_app in Hjoin. simpl in Hjoin. by rewrite orb_true_r in Hjoin.
Qed.

(** ** Array indices as keys *)

Lemma pretty_N_go_keeps (P : string → Prop) x s :
  (∀ c s, P s → P (String (pretty_N_char c) s)) → P s → P (pretty_N_go x s).
Proof.
  intros Hstep. revert s. induction (N.lt_wf_0 x) as [x _ IH]; intros s Hs.
  destruct (decide (x = 0)%N) as [->|Hx].
  - by rewrite pretty_N_go_0.
  - rewrite pretty_N_go_step by lia. apply IH.
    + apply N.div_lt; lia.
    + by apply Hstep.
Qed.

Lemma has_dot_pretty_N_char c : bool_decide (pretty_N_char c = "."%char) = false.
Proof. apply bool_decide_eq_false. unfold pretty_N_char. by repeat case_match. Qed.

Lemma pretty_nat_digits (i : nat) :
  pretty i ≠ "" ∧ has_dot (pretty i) = false
  ∧ ∃ c rest, pretty i = String (pretty_N_char c) rest.
Proof.
  unfold pretty, pretty_nat, pretty, pretty_N.
  destruct (decide (N.of_nat i = 0)%N) as [_|Hi].
  { split_and!; [done|done|]. by exists 0%N, "". }
  rewrite pretty_N_go_step by lia. split_and!.
  - apply (pretty_N_go_keeps (λ s, s ≠ "")); [done|done].
  - apply (pretty_N_go_keeps (λ s, has_dot s = false)).
    + intros c s Hs. simpl. by rewrite has_dot_pretty_N_char.
    + simpl. by rewrite has_dot_pretty_N_char.
  - apply (pretty_N_go_keeps (λ s, ∃ c rest, s = String (pretty_N_char c) rest)).
    + intros c s _. by exists c, s.
    + by eexists _, _.
Qed.

(** An array index is never the name [__proto__]. *)
Lemma pretty_nat_not_proto (i : nat) : pretty i ≠ "__proto__".
Proof.
  destruct (pretty_nat_digits i) as (_ & _ & c & rest & ->).
  intros [= Hc _]. revert Hc. unfold pretty_N_char. by repeat case_match.
Qed.

Lemma plain_key_pretty (i : nat) : plain_key (pretty i) = true.
Proof.
  unfold plain_key. destruct (pretty_nat_digits i) as (Hne & Hdot & _).
  rewrite Hdot, !bool_decide_eq_false_2; [done|apply pretty_nat_not_proto|done].
Qed.

Lemma indexed_keys index items :
  (indexed index items).*1 = pretty <$> seq index (length items).
Proof.
  revert index. induction items as [|v items IH]; intros index; [done|].
  rewrite indexed_cons. simpl. by rewrite IH.
Qed.

Lemma NoDup_indexed_keys index items : NoDup (indexed index items).*1.
Proof. rewrite indexed_keys. apply (NoDup_fmap_2 _), NoDup_seq. Qed.

Lemma indexed_values index items : (indexed index items).*2 = items.
Proof.
  revert index. induction items as [|v items IH]; intros index; [done|].
  rewrite indexed_cons. simpl. by rewrite IH.
Qed.

(** ** Flattening documents with plain property names *)

Lemma jsval_ind (P : jsval → Prop) :
  (∀ s, P (Scalar s)) →
  (∀ t, P (DateObj t)) →
  (∀ items, Forall P items → P (Array items)) →
  (∀ props, Forall (λ kv, P kv.2) props → P (Object props)) →
  ∀ v, P v.
Proof.
  intros Hscalar Hdate Harray Hobject. fix IH 1. intros [s|t|items|props].
  - apply Hscalar.
  - apply Hdate.
  - apply Harray. induction items as [|v items IHitems]; constructor; [apply IH|done].
  - apply Hobject.
    induction props as [|[key v] props IHprops]; constructor; [apply IH|done].
Qed.

Lemma plain_keys_Array items :
  plain_keys (Array items) = true ↔ Forall (λ v, plain_keys v = true) items.
Proof.
  simpl. induction items as [|v items IH]; simpl.
  - split; [constructor|done].
  - rewrite andb_true_iff, Forall_cons, IH. done.
Qed.

Lemma plain_keys_Object props :
  plain_keys (Object props) = true
  ↔ NoDup props.*1
    ∧ Forall (λ kv, plain_key kv.1 = true ∧ plain_keys kv.2 = true) props.
Proof.
  simpl. rewrite andb_true_iff, bool_decide_eq_true.
  apply and_iff_compat_l.
  induction props as [|kv props IH]; simpl.
  - split; [constructor|done].
  - rewrite !andb_true_iff, Forall_cons, IH. done.
Qed.

Lemma flat_props_cons parentKey kv props :
  flat_props parentKey (kv :: props)
  = flat_leaves (joinKey parentKey "." kv.1) kv.2 ++ flat_props parentKey props.
Proof. done. Qed.

(** The keys below different properties differ. *)
Lemma flat_props_keys parentKey props :
  NoDup props.*1 →
  Forall (λ kv, plain_key kv.1 = true) props →
  Forall (child_flattens parentKey) props →
  NoDup (Object_keys (flat_props parentKey props))
  ∧ (∀ k, k ∈ Object_keys (flat_props parentKey props) →
      ∃ kv, kv ∈ props ∧ extends (joinKey parentKey "." kv.1) k)
  ∧ "__proto__" ∉ Object_keys (flat_props parentKey props).
Proof.
  intros Hnd Hplain Hchild.
  cut (NoDup (Object_keys (flat_props parentKey props))
       ∧ (∀ k, k ∈ Object_keys (flat_props parentKey props) →
            ∃ kv, kv ∈ props ∧ extends (joinKey parentKey "." kv.1) k)).
  { intros [Hnd' Hext]. split_and!; [done|done|].
    intros (kv & Hin & Hk)%Hext.
    apply (extends_joinKey_not_proto parentKey kv.1); [|done].
    by apply (proj1 (Forall_forall _ _) Hplain). }
  revert Hnd Hplain Hchild. unfold Object_keys.
  induction props as [|kv props IH]; intros Hnd Hplain Hchild.
  - split; [constructor|]. by intros k ?%elem_of_nil.
  - rewrite fmap_cons in Hnd. apply NoDup_cons in Hnd as [Hfresh Hnd].
    apply Forall_cons in Hplain as [Hkv Hplain].
    apply Forall_cons in Hchild as [(_ & Hnd_kv & Hext_kv) Hchild].
    destruct (IH Hnd Hplain Hchild) as [IHnd IHext].
    rewrite flat_props_cons, fmap_app. split.
    + apply NoDup_app. split_and!; [done| |done].
      intros k Hk1 Hk2. apply Hext_kv in Hk1.
      apply IHext in Hk2 as (kv' & Hin & Hk2).
      assert (plain_key kv'.1 = true) as Hkv'.
      { by apply (proj1 (Forall_forall _ _) Hplain). }
      apply Hfresh. rewrite (extends_joinKey_inj _ _ _ _ Hkv Hkv' Hk1 Hk2).
      by apply list_elem_of_fmap_2.
    + intros k [Hk|Hk]%elem_of_app.
      * exists kv. split; [apply list_elem_of_here|by apply Hext_kv].
      * apply IHext in Hk as (kv' & Hin & Hk).
        exists kv'. split; [by apply list_elem_of_further|done].
Qed.

(** When no key comes twice, the loop appends the leaves below each
    property to the result. *)
Lemma flattenProps_fresh parentKey props result :
  Forall (child_flattens parentKey) props →
  NoDup (Object_keys (result ++ flat_props parentKey props)) →
  "__proto__" ∉ Object_keys (flat_props parentKey props) →
  flattenProps props parentKey "." result = result ++ flat_props parentKey props.
Proof.
  revert result.
  induction props as [|[key v] props IH]; intros result Hchild Hnd Hproto.
  - simpl. by rewrite app_nil_r.
  - apply Forall_cons in Hchild as [(Hflat & _ & _) Hchild].
    rewrite flat_props_cons in Hnd, Hproto |- *. simpl in Hflat, Hnd, Hproto |- *.
    unfold Object_keys in Hproto. rewrite fmap_app in Hproto.
    apply not_elem_of_app in Hproto as [Hproto1 Hproto2].
    rewrite app_assoc in Hnd |- *.
    assert (NoDup (Object_keys (result ++ flat_leaves (joinKey parentKey "." key) v)))
      as Hnd'.
    { unfold Object_keys in Hnd |- *. rewrite fmap_app in Hnd.
      by apply NoDup_app in Hnd as [? _]. }
    destruct v as [s|t|items|props'].
    + rewrite flat_leaves_Scalar in Hnd, Hnd', Hproto1 |- *.
      rewrite prop_set_fresh; [by apply IH| |].
      * unfold Object_keys in Hnd' |- *. rewrite fmap_app in Hnd'.
        apply NoDup_app in Hnd' as (_ & Hdisj & _).
        intros Hin. apply (Hdisj _ Hin), list_elem_of_here.
      * intros Heq. apply Hproto1. rewrite Heq. apply list_elem_of_here.
    + rewrite Hflat, Object_assign_fresh by done. by apply IH.
    + rewrite Hflat, Object_assign_fresh by done. by apply IH.
    + rewrite Hflat, Object_assign_fresh by done. by apply IH.
Qed.

Lemma child_flattens_intro parentKey kv :
  plain_key kv.1 = true → plain_keys kv.2 = true → flattens_to_leaves kv.2 →
  child_flattens parentKey kv.
Proof.
  destruct kv as [key v]. simpl. intros Hkey Hv Hflat.
  assert (joinKey parentKey "." key ≠ "") as Hne.
  { apply joinKey_nonempty. intros ->. done. }
  unfold child_flattens. simpl. destruct (is_scalar v) eqn:Hs.
  - destruct v as [s| | |]; try done. rewrite flat_leaves_Scalar. simpl.
    split_and!; [done|apply NoDup_singleton|].
    intros k ->%list_elem_of_singleton. apply extends_refl.
  - destruct (Hflat (joinKey parentKey "." key) Hv Hs) as (Heq & Hnd & Hext).
    split_and!; [done|done|by apply Hext].
Qed.

Lemma flattens_to_leaves_props parentKey props :
  NoDup props.*1 →
  Forall (λ kv, plain_key kv.1 = true ∧ plain_keys kv.2 = true) props →
  Forall (λ kv, flattens_to_leaves kv.2) props →
  flattenProps props parentKey "." [] = flat_props parentKey props
  ∧ NoDup (Object_keys (flat_props parentKey props))
  ∧ (parentKey ≠ "" →
     ∀ k, k ∈ Object_keys (flat_props parentKey props) → extends parentKey k).
Proof.
  intros Hnd Hplain Hflat.
  assert (Forall (child_flattens parentKey) props) as Hchild.
  { apply Forall_forall. intros kv Hin.
    destruct (proj1 (Forall_forall _ _) Hplain kv Hin) as [Hkey Hv].
    apply child_flattens_intro; [done|done|].
    by apply (proj1 (Forall_forall _ _) Hflat). }
  assert (Forall (λ kv, plain_key kv.1 = true) props) as Hkeys.
  { eapply Forall_impl; [exact Hplain|]. by intros kv [? _]. }
  destruct (flat_props_keys parentKey props Hnd Hkeys Hchild) as (Hnd' & Hext & Hproto).
  split_and!.
  - by rewrite flattenProps_fresh.
  - done.
  - intros Hne k (kv & _ & Hk)%Hext. by eapply extends_joinKey.
Qed.

Lemma flattens_to_leaves_all v : flattens_to_leaves v.
Proof.
  induction v as [s|t|items IH|props IH] using jsval_ind;
    intros parentKey Hplain Hscalar.
  - done.
  - split_and!; [done|constructor|]. by intros _ k ?%elem_of_nil.
  - rewrite flattenObj_Array, flattenItems_indexed, flat_leaves_Array.
    apply plain_keys_Array in Hplain.
    apply flattens_to_leaves_props.
    + apply NoDup_indexed_keys.
    + apply Forall_forall. intros [key v] Hin. simpl. split.
      * apply (list_elem_of_fmap_2 fst) in Hin. rewrite indexed_keys in Hin.
        simpl in Hin.
        apply list_elem_of_fmap in Hin as (i & -> & _). apply plain_key_pretty.
      * apply (list_elem_of_fmap_2 snd) in Hin. rewrite indexed_values in Hin.
        by apply (proj1 (Forall_forall _ _) Hplain).
    + apply Forall_forall. intros [key v] Hin. simpl.
      apply (list_elem_of_fmap_2 snd) in Hin. rewrite indexed_values in Hin.
      by apply (proj1 (Forall_forall _ _) IH).
  - rewrite flattenObj_Object, flat_leaves_Object.
    apply plain_keys_Object in Hplain as [Hnd Hplain].
    by apply flattens_to_leaves_props.
Qed.

Lemma elem_of_prop_lookup {V} (obj : list (string * V)) key v :
  prop_lookup obj key = Some v → (key, v) ∈ obj.
Proof.
  induction obj as [|[k w] obj IH]; simpl; [done|].
  destruct (decide (k = key)) as [->|Hne].
  - intros [= ->]. apply list_elem_of_here.
  - intros Hin. by apply list_elem_of_further, IH.
Qed.

Lemma prop_lookup_elem_of {V} (obj : list (string * V)) key v :
  NoDup (Object_keys obj) → (key, v) ∈ obj → prop_lookup obj key = Some v.
Proof.
  unfold Object_keys. induction obj as [|[k w] obj IH]; simpl.
  - by intros _ ?%elem_of_nil.
  - intros [Hfresh Hnd]%NoDup_cons [Heq|Hin]%elem_of_cons.
    + injection Heq as -> ->. by rewrite decide_True.
    + rewrite decide_False; [by apply IH|].
      intros ->. apply Hfresh. by apply (list_elem_of_fmap_2 fst) in Hin.
Qed.

Lemma NoDup_fmap_eq {X Y} (f : X → Y) (l : list X) x y :
  NoDup (f <$> l) → x ∈ l → y ∈ l → f x = f y → x = y.
Proof.
  induction l as [|z l IH]; simpl.
  - by intros _ ?%elem_of_nil.
  - intros [Hfresh Hnd]%NoDup_cons [->|Hx]%elem_of_cons [->|Hy]%elem_of_cons Heq.
    + done.
    + destruct Hfresh. rewrite Heq. by apply list_elem_of_fmap_2.
    + destruct Hfresh. rewrite <-Heq. by apply list_elem_of_fmap_2.
    + by apply IH.
Qed.

(** C7, as the code has it. For a document (an object or an array) whose
    property names are not empty, hold no dot and are not [__proto__],
    the properties of the flattening are the leaves of the document,
    [null] leaves included, each under the dot-joined key of its path:
    every leaf is found under that key, every property of the output is
    such a leaf, no key occurs twice in the output, and no key stands for
    two leaves. *)
Theorem flattenObj_leaves (doc : jsval) :
  plain_keys doc = true → is_scalar doc = false →
  flattenObj doc "" "." ≡ₚ flat_leaves "" doc
  ∧ NoDup (Object_keys (flattenObj doc "" "."))
  ∧ (∀ path s, (path, s) ∈ leaves doc →
       prop_lookup (flattenObj doc "" ".") (path_key "" path) = Some s)
  ∧ (∀ key s, prop_lookup (flattenObj doc "" ".") key = Some s →
       ∃ path, (path, s) ∈ leaves doc ∧ path_key "" path = key)
  ∧ every_leaf_appears doc
  ∧ no_key_shared doc.
Proof.
  intros Hplain Hscalar.
  destruct (flattens_to_leaves_all doc "" Hplain Hscalar) as (Heq & Hnd & _).
  assert (∀ path s, (path, s) ∈ leaves doc →
    prop_lookup (flattenObj doc "" ".") (path_key "" path) = Some s) as Hfound.
  { intros path s Hin. rewrite Heq. apply prop_lookup_elem_of; [done|].
    by apply (list_elem_of_fmap_2 (prod_map (path_key "") id)) in Hin. }
  split_and!.
  - by rewrite Heq.
  - by rewrite Heq.
  - done.
  - intros key s Hkey. rewrite Heq in Hkey.
    apply elem_of_prop_lookup in Hkey.
    apply list_elem_of_fmap in Hkey as ([path s'] & [= -> ->] & Hin).
    by exists path.
  - intros path s Hin _. exists (path_key "" path). by apply Hfound.
  - intros p s q t Hp Hq Hkey.
    unfold Object_keys, flat_leaves in Hnd. rewrite <-list_fmap_compose in Hnd.
    by injection (NoDup_fmap_eq _ _ (p, s) (q, t) Hnd Hp Hq Hkey).
Qed.

Lemma flattenObj_leaves_witness :
  let doc := Object [("db", Object [("host", Scalar (SString "localhost"));
                                    ("ports", Array [Scalar (SNumber (Num 80));
                                                     Scalar SNull])]);
                     ("debug", Scalar (SBool true))] in
  flattenObj doc "" "."
  ≡ₚ [("db.host", SString "localhost"); ("db.ports.0", SNumber (Num 80));
       ("db.ports.1", SNull); ("debug", SBool true)]
  ∧ every_leaf_appears doc
  ∧ no_key_shared doc.
Proof.
  intros doc.
  destruct (flattenObj_leaves doc) as (Heq & _ & _ & _ & Happears & Hshared).
  - vm_compute. reflexivity.
  - reflexivity.
  - split_and!; [|done|done]. by rewrite Heq.
Defined.

(** C7, counterexample. In [{"a.b": 1, a: {b: 2}}] the two leaves get the
    same key [a.b]: the output holds the second one only. *)
Lemma flattenObj_dotted_key_collision :
  let doc := Object [("a.b", Scalar (SNumber (Num 1)));
                     ("a", Object [("b", Scalar (SNumber (Num 2)))])] in
  flattenObj doc "" "." = [("a.b", SNumber (Num 2))]
  ∧ ¬ every_leaf_appears doc
  ∧ ¬ no_key_shared doc.
Proof.
  intros doc. split_and!.
  - reflexivity.
  - intros Hclaim.
    destruct (Hclaim ["a.b"] (SNumber (Num 1))) as [key Hkey]; [|done|].
    + vm_compute. apply list_elem_of_here.
    + change (flattenObj doc "" ".") with [("a.b", SNumber (Num 2))] in Hkey.
      simpl in Hkey. by case_decide.
  - intros Hclaim.
    assert (["a.b"] = ["a"; "b"]) as Heq; [|done].
    apply (Hclaim _ (SNumber (Num 1)) _ (SNumber (Num 2))).
    + vm_compute. apply list_elem_of_here.
    + vm_compute. apply list_elem_of_further, list_elem_of_here.
    + reflexivity.
Qed.

(** ** Arrays *)

Lemma joinKey_inj parentKey key1 key2 :
  joinKey parentKey "." key1 = joinKey parentKey "." key2 → key1 = key2.
Proof.
  unfold joinKey. destruct (decide (parentKey = "")); [done|].
  intros Heq%(inj (String.app parentKey)). by injection Heq.
Qed.

Lemma joinKey_pretty_not_proto parentKey (j : nat) :
  joinKey parentKey "." (pretty j) ≠ "__proto__".
Proof.
  unfold joinKey. destruct (decide (parentKey = "")); [apply pretty_nat_not_proto|].
  intros Heq. assert (has_dot (parentKey +:+ "." +:+ pretty j) = false) as Hdot
    by by rewrite Heq.
  rewrite !has_dot_app in Hdot. simpl in Hdot. by rewrite orb_true_r in Hdot.
Qed.

Lemma flattenItems_scalars (scalars : list scalar) (index : nat) parentKey result :
  (∀ j, (index ≤ j)%nat → joinKey parentKey "." (pretty j) ∉ Object_keys result) →
  flattenItems (Scalar <$> scalars) index parentKey "." result
  = result ++ imap (λ j s, (joinKey parentKey "." (pretty (index + j)), s)) scalars.
Proof.
  revert index result.
  induction scalars as [|s scalars IH]; intros index result Hfresh; simpl.
  - by rewrite app_nil_r.
  - rewrite prop_set_fresh by (by apply Hfresh || apply joinKey_pretty_not_proto).
    rewrite IH.
    + rewrite <-app_assoc. simpl. rewrite Nat.add_0_r. do 2 f_equal.
      apply imap_ext. intros j x _. simpl. do 3 f_equal. lia.
    + intros j Hj. unfold Object_keys. rewrite fmap_app. simpl.
      rewrite elem_of_app, list_elem_of_singleton.
      intros [Hin|Heq].
      * apply (Hfresh j); [lia|done].
      * apply joinKey_inj, (inj pretty) in Heq. lia.
Qed.

Lemma NoDup_index_keys (scalars : list scalar) parentKey :
  NoDup (Object_keys (imap (λ j s, (joinKey parentKey "." (pretty j), s)) scalars)).
Proof.
  assert (∀ index : nat,
    Object_keys (imap (λ j s, (joinKey parentKey "." (pretty (index + j)), s)) scalars)
    = (λ j : nat, joinKey parentKey "." (pretty j)) <$> seq index (length scalars))
    as Hkeys.
  { unfold Object_keys. induction scalars as [|s scalars IH]; intros index; [done|].
    simpl. rewrite Nat.add_0_r. f_equal. rewrite <-IH. f_equal.
    apply imap_ext. intros j x _. simpl. do 3 f_equal. lia. }
  specialize (Hkeys 0). cbn [Nat.add] in Hkeys. rewrite Hkeys.
  apply NoDup_fmap_2_strong; [|apply NoDup_seq].
  intros i j _ _ Heq. by apply joinKey_inj, (inj pretty) in Heq.
Qed.

Lemma index_keys_not_proto (scalars : list scalar) parentKey :
  "__proto__"
  ∉ Object_keys (imap (λ j s, (joinKey parentKey "." (pretty j), s)) scalars).
Proof.
  cut (∀ index : nat, "__proto__" ∉ Object_keys
         (imap (λ j s, (joinKey parentKey "." (pretty (index + j)), s)) scalars)).
  { intros Hall. apply (Hall 0). }
  unfold Object_keys. induction scalars as [|s scalars IH]; intros index.
  - apply not_elem_of_nil.
  - simpl. apply not_elem_of_cons. split.
    + intros Heq. by apply (joinKey_pretty_not_proto parentKey (index + 0)).
    + rewrite (imap_ext _ (λ j x, (joinKey parentKey "." (pretty (S index + j)), x)))
        by (intros; simpl; do 3 f_equal; lia).
      apply IH.
Qed.

(** C6, as the code has it. An array is flattened like the object whose
    property names are the indices of the array: [flattenObj] recurses
    into the elements with the index as the next part of the key. So an
    array of scalars under [key] yields one entry per element, under
    [key.0], [key.1], ..., and no entry under [key] itself. *)
Theorem flattenObj_array_by_index :
  (∀ items parentKey sep,
     flattenObj (Array items) parentKey sep
     = flattenObj (Object (indexed 0 items)) parentKey sep)
  ∧ (∀ key scalars,
       flattenObj (Object [(key, Array (Scalar <$> scalars))]) "" "."
       = imap (λ i s, (joinKey key "." (pretty i), s)) scalars).
Proof.
  split.
  - apply flattenObj_Array_indexed.
  - intros key scalars. rewrite flattenObj_Object. cbn [flattenProps].
    rewrite flattenObj_Array, flattenItems_scalars.
    + rewrite !app_nil_l. change (joinKey "" "." key) with key.
      rewrite Object_assign_fresh; [done|apply NoDup_index_keys|].
      apply index_keys_not_proto.
    + intros j _. apply not_elem_of_nil.
Qed.

(** C6, counterexample. The array [[1, 2]] under [key] is not kept as a
    leaf: the output has the keys [key.0] and [key.1]. *)
Lemma flattenObj_array_not_leaf :
  flattenObj (Object [("key", Array [Scalar (SNumber (Num 1));
                                     Scalar (SNumber (Num 2))])]) "" "."
  = [("key.0", SNumber (Num 1)); ("key.1", SNumber (Num 2))]
  ∧ ¬ array_kept_as_leaf "key" [Scalar (SNumber (Num 1)); Scalar (SNumber (Num 2))].
Proof.
  split; [reflexivity|].
  intros Hclaim. apply (Hclaim 0). vm_compute. apply list_elem_of_here.
Qed.

Example flattenObj_array_of_maps :
  flattenObj (Object [("servers", Array [Object [("host", Scalar (SString "a"))];
                                         Object [("host", Scalar (SString "b"))]])])
    "" "."
  = [("servers.0.host", SString "a"); ("servers.1.host", SString "b")].
Proof. reflexivity. Qed.

Example flattenObj_scenario3 :
  flattenObj (Object [("db", Object [("host", Scalar (SString "localhost"))])]) "" "."
  = [("db.host", SString "localhost")].
Proof. reflexivity. Qed.

Example compareEnvKeys_scenario1 :
  compareEnvKeys ["FOO"; "BAR"] ["FOO"; "BAZ"]
  = {| missingKeysInFirstConfigFile := ["BAZ"];
       missingKeysInSecondConfigFile := ["BAR"] |}.
Proof. reflexivity. Qed.

Example getValueDifferences_scenario2 :
  getValueDifferences "a.env" "b.env"
    {| own := [("FOO", SString "1")]; inherits := true |}
    {| own := [("FOO", SString "2")]; inherits := true |}
  = [("FOO", [("a.env", Held (SString "1")); ("b.env", Held (SString "2"))])].
Proof. reflexivity. Qed.

(** ** Runs *)

Example compare_scenario1 :
  compare env_host "a.env" "b.env" {| keys := true; values := false |}
  = [ExistsSync "/cwd/a.env"; ReadFileSync "/cwd/a.env"; DotenvParse "FOO=1
BAR=2";
     ExistsSync "/cwd/b.env"; ReadFileSync "/cwd/b.env"; DotenvParse "FOO=1
BAZ=3";
     ConsoleLog (KeyDifferences {| missingKeysInFirstConfigFile := ["BAZ"];
                                   missingKeysInSecondConfigFile := ["BAR"] |})].
Proof. reflexivity. Qed.

Example compare_scenario4 :
  compare env_host "empty.env" "empty.env" {| keys := false; values := true |}
  = [ExistsSync "/cwd/empty.env"; ReadFileSync "/cwd/empty.env"; DotenvParse "";
     ExistsSync "/cwd/empty.env"; ReadFileSync "/cwd/empty.env"; DotenvParse "";
     ConsoleLog BothEmpty; ConsoleLog NoValueDifferences].
Proof. reflexivity. Qed.

Section runs.
Context (h : Host) (f1 f2 : string) (options : ConfigOptions).

Lemma checkIfBothFilesAreOfSameType_same :
  extname h f1 = extname h f2 →
  checkIfBothFilesAreOfSameType h f1 f2 = ([], inr tt).
Proof.
  intros Heq. unfold checkIfBothFilesAreOfSameType.
  by rewrite bool_decide_eq_false_2 by by intros ?.
Qed.

Lemma checkIfBothFilesAreOfSameType_differ :
  extname h f1 ≠ extname h f2 →
  checkIfBothFilesAreOfSameType h f1 f2 = ([], inl FileCompareError).
Proof.
  intros Hne. unfold checkIfBothFilesAreOfSameType.
  by rewrite bool_decide_eq_true_2.
Qed.

Lemma checkIfAnyEnvironmentObjectIsEmpty_returns A B :
  checkIfAnyEnvironmentObjectIsEmpty f1 f2 A B = (empty_report f1 f2 A B, inr tt).
Proof.
  unfold empty_report, checkIfAnyEnvironmentObjectIsEmpty.
  by repeat case_match.
Qed.

Lemma empty_report_nonempty A B : A ≠ [] → B ≠ [] → empty_report f1 f2 A B = [].
Proof.
  intros HA HB. unfold empty_report, checkIfAnyEnvironmentObjectIsEmpty, isEmpty.
  destruct A, B; done.
Qed.

Lemma parseFile_missing f :
  existsSync h (resolve h f) = false →
  parseFile h f = ([ExistsSync (resolve h f)], inl (FileNotFoundError (resolve h f))).
Proof.
  intros Hex. unfold parseFile, validateAndReturnResolvedFilePath.
  rewrite Hex. reflexivity.
Qed.

Lemma parseFile_yaml_rejected f content thrown :
  existsSync h (resolve h f) = true →
  extname h (resolve h f) = ".yaml" ∨ extname h (resolve h f) = ".yml" →
  readFileSync h (resolve h f) = inr content →
  yaml_load h content = inl thrown →
  parseFile h f
  = ([ExistsSync (resolve h f); ReadFileSync (resolve h f); YamlLoad content],
     inl (OtherError thrown)).
Proof.
  intros Hex Hext Hread Hload.
  unfold parseFile, validateAndReturnResolvedFilePath, readFile.
  rewrite Hex. destruct Hext as [Hext|Hext]; rewrite Hext; simpl;
    unfold mbind, M_bind; simpl; rewrite Hread; simpl; by rewrite Hload.
Qed.

(** Reading a [.env] file that exists never fails in the parser. *)
Lemma parseFile_dotenv f content :
  existsSync h (resolve h f) = true →
  extname h (resolve h f) = ".env" →
  readFileSync h (resolve h f) = inr content →
  parseFile h f
  = ([ExistsSync (resolve h f); ReadFileSync (resolve h f); DotenvParse content],
     inr (prod_map id SString <$> dotenv_parse h content)).
Proof.
  intros Hex Hext Hread.
  unfold parseFile, validateAndReturnResolvedFilePath, readFile.
  rewrite Hex, Hext. simpl. unfold mbind, M_bind. simpl. by rewrite Hread.
Qed.

(** A file that was parsed has been read. *)
Lemma parseFile_parsed f t A :
  parseFile h f = (t, inr A) →
  ∃ content, t = [ExistsSync (resolve h f); ReadFileSync (resolve h f);
                  if bool_decide (extname h (resolve h f) = ".env")
                  then DotenvParse content else YamlLoad content].
Proof.
  unfold parseFile, validateAndReturnResolvedFilePath, readFile.
  destruct (existsSync h (resolve h f)); simpl; [|done].
  destruct (bool_decide (extname h (resolve h f) ≠ ".env")
            && bool_decide (extname h (resolve h f) ≠ ".yaml")
            && bool_decide (extname h (resolve h f) ≠ ".yml")); simpl; [done|].
  unfold mbind, M_bind. simpl.
  destruct (bool_decide (extname h (resolve h f) = ".env")); simpl;
    destruct (readFileSync h (resolve h f)) as [thrown|content]; simpl; try done.
  - intros [= <- _]. by exists content.
  - destruct (yaml_load h content); simpl; [done|].
    intros [= <- _]. by exists content.
Qed.

(** Parsing a file logs nothing but accesses. *)
Lemma parseFile_accesses f : Forall (λ ev, is_access ev = true) (parseFile h f).1.
Proof.
  unfold parseFile, validateAndReturnResolvedFilePath, readFile.
  destruct (existsSync h (resolve h f)); simpl; [|by repeat constructor].
  destruct (bool_decide (extname h (resolve h f) ≠ ".env")
            && bool_decide (extname h (resolve h f) ≠ ".yaml")
            && bool_decide (extname h (resolve h f) ≠ ".yml")); simpl;
    [by repeat constructor|].
  unfold mbind, M_bind. simpl.
  destruct (bool_decide (extname h (resolve h f) = ".env")); simpl;
    destruct (readFileSync h (resolve h f)) as [thrown|content]; simpl;
    try by repeat constructor.
  destruct (yaml_load h content); simpl; by repeat constructor.
Qed.

(** *** The four ways through the [try] block *)

Lemma compare_body_mismatch :
  extname h f1 ≠ extname h f2 →
  compare_body h f1 f2 options = ([], inl FileCompareError).
Proof.
  intros Hne. unfold compare_body.
  by rewrite checkIfBothFilesAreOfSameType_differ.
Qed.

Lemma compare_body_first_fails t1 e :
  extname h f1 = extname h f2 →
  parseFile h f1 = (t1, inl e) →
  compare_body h f1 f2 options = (t1, inl e).
Proof.
  intros Hext Hp1. unfold compare_body.
  rewrite checkIfBothFilesAreOfSameType_same, Hp1 by done. reflexivity.
Qed.

Lemma compare_body_second_fails t1 A t2 e :
  extname h f1 = extname h f2 →
  parseFile h f1 = (t1, inr A) →
  parseFile h f2 = (t2, inl e) →
  compare_body h f1 f2 options = (t1 ++ t2, inl e).
Proof.
  intros Hext Hp1 Hp2. unfold compare_body.
  rewrite checkIfBothFilesAreOfSameType_same, Hp1, Hp2 by done. reflexivity.
Qed.

Lemma compare_body_parsed t1 A t2 B :
  extname h f1 = extname h f2 →
  parseFile h f1 = (t1, inr A) →
  parseFile h f2 = (t2, inr B) →
  compare_body h f1 f2 options
  = (t1 ++ t2 ++ empty_report f1 f2 A B ++
       (if keys options
        then [ConsoleLog (KeyDifferences (compareEnvKeys (Object_keys A) (Object_keys B)))]
        else if values options
        then [ConsoleLog
                (if bool_decide
                      (0 < length (Object_keys
                             (getValueDifferences f1 f2 (parsed h f1 A) (parsed h f2 B))))%nat
                 then ValueDifferences
                        (getValueDifferences f1 f2 (parsed h f1 A) (parsed h f2 B))
                 else NoValueDifferences)]
        else []),
     inr tt).
Proof.
  intros Hext Hp1 Hp2. unfold compare_body, mbind, M_bind.
  rewrite checkIfBothFilesAreOfSameType_same by done. cbn [fst snd].
  rewrite Hp1. cbn [fst snd]. rewrite Hp2. cbn [fst snd].
  rewrite checkIfAnyEnvironmentObjectIsEmpty_returns. cbn [fst snd app].
  destruct (keys options), (values options); try done.
  by case_bool_decide.
Qed.
End runs.

(** ** The run as a whole *)

Lemma compare_failed h f1 f2 options t e :
  compare_body h f1 f2 options = (t, inl e) →
  compare h f1 f2 options = t ++ compare_catch e
  ∧ failure h f1 f2 options = Some e.
Proof. intros Hbody. unfold compare, failure. by rewrite Hbody. Qed.

Lemma compare_returned h f1 f2 options t :
  compare_body h f1 f2 options = (t, inr tt) →
  compare h f1 f2 options = t ∧ failure h f1 f2 options = None.
Proof. intros Hbody. unfold compare, failure. by rewrite Hbody. Qed.

Lemma exit_status_accesses t t' :
  Forall (λ ev, is_access ev = true) t → exit_status (t ++ t') = exit_status t'.
Proof.
  induction 1 as [|ev t Hev _ IH]; simpl; [done|]. by destruct ev.
Qed.

Lemma is_access_not_value_output ev : is_access ev = true → is_value_output ev = false.
Proof. by destruct ev. Qed.

Lemma empty_report_not_value_output f1 f2 A B :
  Forall (λ ev, is_value_output ev = false) (empty_report f1 f2 A B).
Proof.
  unfold empty_report, checkIfAnyEnvironmentObjectIsEmpty.
  repeat case_match; by repeat constructor.
Qed.

Lemma compare_catch_not_value_output e :
  Forall (λ ev, is_value_output ev = false) (compare_catch e).
Proof. by repeat constructor. Qed.

Lemma parseFile_not_value_output h f :
  Forall (λ ev, is_value_output ev = false) (parseFile h f).1.
Proof.
  eapply Forall_impl; [apply parseFile_accesses|].
  apply is_access_not_value_output.
Qed.

Lemma parseFile_not_FileCompareError h f : (parseFile h f).2 ≠ inl FileCompareError.
Proof.
  unfold parseFile, validateAndReturnResolvedFilePath, readFile.
  destruct (existsSync h (resolve h f)); simpl; [|done].
  destruct (bool_decide (extname h (resolve h f) ≠ ".env")
            && bool_decide (extname h (resolve h f) ≠ ".yaml")
            && bool_decide (extname h (resolve h f) ≠ ".yml")); simpl; [done|].
  unfold mbind, M_bind. simpl.
  destruct (bool_decide (extname h (resolve h f) = ".env")); simpl;
    destruct (readFileSync h (resolve h f)) as [thrown|content]; simpl; try done.
  by destruct (yaml_load h content).
Qed.

(** The run fails with [FileCompareError] exactly when the extensions of
    the two paths, as [path.extname] gives them, are different strings. *)
Lemma failure_FileCompareError h f1 f2 options :
  failure h f1 f2 options = Some FileCompareError ↔ extname h f1 ≠ extname h f2.
Proof.
  split.
  - intros Hfail Hext.
    pose proof (parseFile_not_FileCompareError h f1) as H1.
    pose proof (parseFile_not_FileCompareError h f2) as H2.
    destruct (parseFile h f1) as [t1 [e1|A]] eqn:Hp1.
    + destruct (compare_failed h f1 f2 options t1 e1) as [_ Hf].
      { by apply compare_body_first_fails. }
      rewrite Hf in Hfail. simpl in H1. congruence.
    + destruct (parseFile h f2) as [t2 [e2|B]] eqn:Hp2.
      * destruct (compare_failed h f1 f2 options (t1 ++ t2) e2) as [_ Hf].
        { by eapply compare_body_second_fails. }
        rewrite Hf in Hfail. simpl in H2. congruence.
      * destruct (compare_returned h f1 f2 options _
                    (compare_body_parsed h f1 f2 options t1 A t2 B Hext Hp1 Hp2))
          as [_ Hf].
        by rewrite Hf in Hfail.
  - intros Hne.
    by destruct (compare_failed h f1 f2 options [] FileCompareError
                   (compare_body_mismatch h f1 f2 options Hne)) as [_ ->].
Qed.

(** C3, on the code. A [.yaml] file and a [.yml] file are of the same
    format family, and still [compare] rejects the pair before looking at
    either file: the two extensions are compared as strings, and the run
    ends with the [FileCompareError] line and exit code 1. *)
Theorem compare_yaml_with_yml (h : Host) (f1 f2 : string) (options : ConfigOptions) :
  extname h f1 = ".yaml" → extname h f2 = ".yml" →
  compare h f1 f2 options
  = [ConsoleError (known_error_line "FileCompareError: Cannot compare dissimilar file");
     ProcessExit 1]
  ∧ kind_of <$> failure h f1 f2 options = Some FormatMismatch
  ∧ exit_status (compare h f1 f2 options) = 1%Z.
Proof.
  intros Hext1 Hext2.
  destruct (compare_failed h f1 f2 options [] FileCompareError) as [-> ->].
  - apply compare_body_mismatch. by rewrite Hext1, Hext2.
  - done.
Qed.

Lemma compare_yaml_with_yml_witness :
  compare yaml_yml_host "a.yaml" "b.yml" {| keys := true; values := false |}
  = [ConsoleError (known_error_line "FileCompareError: Cannot compare dissimilar file");
     ProcessExit 1]
  ∧ kind_of <$> failure yaml_yml_host "a.yaml" "b.yml" {| keys := true; values := false |}
    = Some FormatMismatch
  ∧ exit_status (compare yaml_yml_host "a.yaml" "b.yml" {| keys := true; values := false |})
    = 1%Z.
Proof. apply (compare_yaml_with_yml yaml_yml_host "a.yaml" "b.yml"); reflexivity. Defined.

(** C4, on the code. When the first document is empty and the second is
    not, [compare] reports the empty file and then goes on: with [--keys]
    the key comparison is computed and printed all the same. *)
Theorem compare_goes_on_after_empty (h : Host) (f1 f2 : string) (vals : bool)
    (t1 t2 : list event) (B : list (string * scalar)) :
  extname h f1 = extname h f2 →
  parseFile h f1 = (t1, inr []) →
  parseFile h f2 = (t2, inr B) →
  B ≠ [] →
  compare h f1 f2 {| keys := true; values := vals |}
  = t1 ++ t2 ++ [ConsoleLog (FileEmpty f1);
                 ConsoleLog (KeyDifferences (compareEnvKeys [] (Object_keys B)))].
Proof.
  intros Hext Hp1 Hp2 HB.
  destruct (compare_returned h f1 f2 {| keys := true; values := vals |}
    (t1 ++ t2 ++ [ConsoleLog (FileEmpty f1);
                  ConsoleLog (KeyDifferences (compareEnvKeys [] (Object_keys B)))]))
    as [-> _]; [|done].
  rewrite (compare_body_parsed _ _ _ _ t1 [] t2 B) by done.
  by destruct B.
Qed.

Lemma compare_goes_on_after_empty_witness :
  compare env_host "empty.env" "b.env" {| keys := true; values := false |}
  = [ExistsSync "/cwd/empty.env"; ReadFileSync "/cwd/empty.env"; DotenvParse ""]
    ++ [ExistsSync "/cwd/b.env"; ReadFileSync "/cwd/b.env"; DotenvParse "FOO=1
BAZ=3"]
    ++ [ConsoleLog (FileEmpty "empty.env");
        ConsoleLog (KeyDifferences
          (compareEnvKeys [] (Object_keys [("FOO", SString "1"); ("BAZ", SString "3")])))].
Proof.
  apply (compare_goes_on_after_empty env_host "empty.env" "b.env" false);
    [reflexivity|reflexivity|reflexivity|done].
Defined.

(** C5, as the code has it. The extensions are compared first: when they
    differ the run fails with [FileCompareError] whether the files exist
    or not. When they agree and the first path does not exist, the run
    fails with [FileNotFoundError] for that path and nothing is read.
    When the first file is parsed and the second path does not exist, the
    run fails with [FileNotFoundError] for the second path, the first
    file having been read and parsed before. *)
Theorem compare_missing_file (h : Host) (f1 f2 : string) (options : ConfigOptions) :
  (extname h f1 ≠ extname h f2 →
     failure h f1 f2 options = Some FileCompareError)
  ∧ (extname h f1 = extname h f2 →
     existsSync h (resolve h f1) = false →
     compare h f1 f2 options
     = [ExistsSync (resolve h f1);
        ConsoleError (known_error_line
          ("FileNotFoundError: File Not Found - File: " +:+ resolve h f1));
        ProcessExit 1]
     ∧ failure h f1 f2 options = Some (FileNotFoundError (resolve h f1)))
  ∧ (∀ t1 A,
     extname h f1 = extname h f2 →
     parseFile h f1 = (t1, inr A) →
     existsSync h (resolve h f2) = false →
     compare h f1 f2 options
     = t1 ++ [ExistsSync (resolve h f2);
              ConsoleError (known_error_line
                ("FileNotFoundError: File Not Found - File: " +:+ resolve h f2));
              ProcessExit 1]
     ∧ failure h f1 f2 options = Some (FileNotFoundError (resolve h f2))
     ∧ ReadFileSync (resolve h f1) ∈ t1).
Proof.
  split_and!.
  - intros Hne.
    by destruct (compare_failed h f1 f2 options [] FileCompareError
                   (compare_body_mismatch h f1 f2 options Hne)) as [_ ->].
  - intros Hext Hex.
    destruct (compare_failed h f1 f2 options
      [ExistsSync (resolve h f1)] (FileNotFoundError (resolve h f1))) as [-> ->];
      [|done].
    by apply compare_body_first_fails, parseFile_missing.
  - intros t1 A Hext Hp1 Hex.
    destruct (compare_failed h f1 f2 options
      (t1 ++ [ExistsSync (resolve h f2)]) (FileNotFoundError (resolve h f2)))
      as [-> ->].
    + eapply compare_body_second_fails; [done|done|]. by apply parseFile_missing.
    + split_and!; [by rewrite <-app_assoc|done|].
      apply parseFile_parsed in Hp1 as [content ->].
      apply list_elem_of_further, list_elem_of_here.
Qed.

Lemma compare_missing_file_witness :
  failure env_host "a.env" "b.yaml" {| keys := true; values := false |}
  = Some FileCompareError
  ∧ compare env_host "missing.env" "b.env" {| keys := true; values := false |}
    = [ExistsSync "/cwd/missing.env";
       ConsoleError (known_error_line
         "FileNotFoundError: File Not Found - File: /cwd/missing.env");
       ProcessExit 1]
  ∧ compare env_host "a.env" "missing.env" {| keys := true; values := false |}
    = [ExistsSync "/cwd/a.env"; ReadFileSync "/cwd/a.env"; DotenvParse "FOO=1
BAR=2";
       ExistsSync "/cwd/missing.env";
       ConsoleError (known_error_line
         "FileNotFoundError: File Not Found - File: /cwd/missing.env");
       ProcessExit 1].
Proof.
  split_and!.
  - by apply (proj1 (compare_missing_file env_host "a.env" "b.yaml" _)).
  - by apply (proj1 (proj2 (compare_missing_file env_host "missing.env" "b.env" _))).
  - by apply (proj2 (proj2 (compare_missing_file env_host "a.env" "missing.env" _))
                [ExistsSync "/cwd/a.env"; ReadFileSync "/cwd/a.env";
                 DotenvParse "FOO=1
BAR=2"] [("FOO", SString "1"); ("BAR", SString "2")]).
Defined.

(** C5, counterexample. With [a.env] present and the second path missing,
    the first file is read and parsed before the run fails. *)
Lemma compare_reads_first_file :
  ¬ fails_before_any_parse env_host "a.env" "missing.env"
      {| keys := true; values := false |}.
Proof.
  intros Hclaim. destruct Hclaim as [_ Hnone]; [by right|].
  apply (Hnone (ReadFileSync "/cwd/a.env")).
  vm_compute. apply list_elem_of_further, list_elem_of_here.
Qed.

(** C8, as the code has it. There is no error kind for a text that cannot
    be parsed. When the two paths have the same extension and the YAML
    loader rejects the text of the first file (which exists, is a
    [.yaml] or [.yml] file and can be read), or of the second such file
    once the first has been parsed, what the loader throws reaches the
    [catch] block as an unknown error: the run prints the unknown-error
    line and exits with code 1. *)
Theorem compare_rejected_yaml (h : Host) (f1 f2 : string) (options : ConfigOptions) :
  (∀ e, kind_of e ≠ ParseError)
  ∧ (∀ content thrown,
     extname h f1 = extname h f2 →
     existsSync h (resolve h f1) = true →
     extname h (resolve h f1) = ".yaml" ∨ extname h (resolve h f1) = ".yml" →
     readFileSync h (resolve h f1) = inr content →
     yaml_load h content = inl thrown →
     compare h f1 f2 options
     = [ExistsSync (resolve h f1); ReadFileSync (resolve h f1); YamlLoad content;
        ConsoleError (unknown_error_line thrown); ProcessExit 1]
     ∧ kind_of <$> failure h f1 f2 options = Some UnknownError
     ∧ exit_status (compare h f1 f2 options) = 1%Z)
  ∧ (∀ t1 A content thrown,
     extname h f1 = extname h f2 →
     parseFile h f1 = (t1, inr A) →
     existsSync h (resolve h f2) = true →
     extname h (resolve h f2) = ".yaml" ∨ extname h (resolve h f2) = ".yml" →
     readFileSync h (resolve h f2) = inr content →
     yaml_load h content = inl thrown →
     compare h f1 f2 options
     = t1 ++ [ExistsSync (resolve h f2); ReadFileSync (resolve h f2); YamlLoad content;
              ConsoleError (unknown_error_line thrown); ProcessExit 1]
     ∧ kind_of <$> failure h f1 f2 options = Some UnknownError
     ∧ exit_status (compare h f1 f2 options) = 1%Z).
Proof.
  split_and!.
  - by intros [].
  - intros content thrown Hext Hex Hyaml Hread Hload.
    destruct (compare_failed h f1 f2 options
      [ExistsSync (resolve h f1); ReadFileSync (resolve h f1); YamlLoad content]
      (OtherError thrown)) as [-> ->]; [|done].
    apply compare_body_first_fails; [done|]. by apply parseFile_yaml_rejected.
  - intros t1 A content thrown Hext Hp1 Hex Hyaml Hread Hload.
    destruct (compare_failed h f1 f2 options
      (t1 ++ [ExistsSync (resolve h f2); ReadFileSync (resolve h f2); YamlLoad content])
      (OtherError thrown)) as [-> ->].
    + eapply compare_body_second_fails; [done|done|].
      by apply parseFile_yaml_rejected.
    + rewrite <-app_assoc. split_and!; [done|done|].
      rewrite exit_status_accesses; [done|].
      pose proof (parseFile_accesses h f1) as Hacc. by rewrite Hp1 in Hacc.
Qed.

Lemma compare_rejected_yaml_witness :
  compare broken_yaml_host "a.yaml" "b.yaml" {| keys := true; values := false |}
  = [ExistsSync "/cwd/a.yaml"; ReadFileSync "/cwd/a.yaml"; YamlLoad "a: [1";
     ConsoleError (unknown_error_line
       "YAMLException: unexpected end of the stream within a flow collection");
     ProcessExit 1]
  ∧ exit_status (compare broken_yaml_host "b.yaml" "a.yaml"
                   {| keys := true; values := false |}) = 1%Z.
Proof.
  split_and!.
  - by eapply proj1,
      (proj1 (proj2 (compare_rejected_yaml broken_yaml_host "a.yaml" "b.yaml" _))
         "a: [1"); [..|left|reflexivity|reflexivity].
  - by eapply proj2, proj2,
      (proj2 (proj2 (compare_rejected_yaml broken_yaml_host "b.yaml" "a.yaml" _))
         [ExistsSync "/cwd/b.yaml"; ReadFileSync "/cwd/b.yaml"; YamlLoad "a: 1"]
         [("a", SNumber (Num 1))] "a: [1"); [..|left|reflexivity|reflexivity].
Defined.

(** C8, counterexample. The loader rejects the text of [a.yaml], and the
    run fails under the kind [UnknownError], not [ParseError]. *)
Lemma compare_rejected_yaml_not_ParseError :
  kind_of <$> failure broken_yaml_host "a.yaml" "b.yaml" {| keys := true; values := false |}
  = Some UnknownError
  ∧ ¬ rejected_text_is_ParseError broken_yaml_host "a.yaml" "b.yaml"
        {| keys := true; values := false |}.
Proof.
  split; [reflexivity|].
  intros Hclaim.
  specialize (Hclaim "a: [1"
    "YAMLException: unexpected end of the stream within a flow collection"
    eq_refl eq_refl).
  vm_compute in Hclaim. discriminate.
Qed.

(** C9. With [--keys] set, the run is the same whether [--values] is set
    or not, and no output of the value comparison occurs in it. After
    both files are parsed, what is printed is the report of an empty
    document, if any, and then the key differences, which end the run. *)
Theorem compare_keys_takes_precedence (h : Host) (f1 f2 : string) :
  let both := {| keys := true; values := true |} in
  compare h f1 f2 both = compare h f1 f2 {| keys := true; values := false |}
  ∧ Forall (λ ev, is_value_output ev = false) (compare h f1 f2 both)
  ∧ (∀ t1 A t2 B,
     extname h f1 = extname h f2 →
     parseFile h f1 = (t1, inr A) →
     parseFile h f2 = (t2, inr B) →
     compare h f1 f2 both
     = t1 ++ t2 ++ empty_report f1 f2 A B
       ++ [ConsoleLog (KeyDifferences (compareEnvKeys (Object_keys A) (Object_keys B)))]).
Proof.
  intros both.
  assert (∀ t1 A t2 B,
    extname h f1 = extname h f2 →
    parseFile h f1 = (t1, inr A) →
    parseFile h f2 = (t2, inr B) →
    compare h f1 f2 both
    = t1 ++ t2 ++ empty_report f1 f2 A B
      ++ [ConsoleLog (KeyDifferences (compareEnvKeys (Object_keys A) (Object_keys B)))])
    as Hparsed.
  { intros t1 A t2 B Hext Hp1 Hp2.
    by destruct (compare_returned h f1 f2 both _
                   (compare_body_parsed h f1 f2 both t1 A t2 B Hext Hp1 Hp2)) as [-> _]. }
  split_and!; [reflexivity| |done].
  destruct (decide (extname h f1 = extname h f2)) as [Hext|Hext].
  - destruct (parseFile h f1) as [t1 [e|A]] eqn:Hp1.
    + destruct (compare_failed h f1 f2 both t1 e) as [-> _].
      { by apply compare_body_first_fails. }
      apply Forall_app. split; [|apply compare_catch_not_value_output].
      pose proof (parseFile_not_value_output h f1) as H1. by rewrite Hp1 in H1.
    + pose proof (parseFile_not_value_output h f1) as H1. rewrite Hp1 in H1.
      pose proof (parseFile_not_value_output h f2) as H2.
      destruct (parseFile h f2) as [t2 [e|B]] eqn:Hp2.
      * destruct (compare_failed h f1 f2 both (t1 ++ t2) e) as [-> _].
        { by eapply compare_body_second_fails. }
        rewrite !Forall_app. split_and!; [done|done|].
        apply compare_catch_not_value_output.
      * rewrite (Hparsed t1 A t2 B) by done.
        rewrite !Forall_app. split_and!; [done|done| |by repeat constructor].
        apply empty_report_not_value_output.
  - destruct (compare_failed h f1 f2 both [] FileCompareError) as [-> _].
    { by apply compare_body_mismatch. }
    apply compare_catch_not_value_output.
Qed.

Lemma compare_keys_takes_precedence_witness :
  compare env_host "a.env" "b.env" {| keys := true; values := true |}
  = [ExistsSync "/cwd/a.env"; ReadFileSync "/cwd/a.env"; DotenvParse "FOO=1
BAR=2"]
    ++ [ExistsSync "/cwd/b.env"; ReadFileSync "/cwd/b.env"; DotenvParse "FOO=1
BAZ=3"]
    ++ empty_report "a.env" "b.env" [("FOO", SString "1"); ("BAR", SString "2")]
         [("FOO", SString "1"); ("BAZ", SString "3")]
    ++ [ConsoleLog (KeyDifferences (compareEnvKeys ["FOO"; "BAR"] ["FOO"; "BAZ"]))].
Proof.
  by apply (proj2 (proj2 (compare_keys_takes_precedence env_host "a.env" "b.env"))).
Defined.

(** C10. With neither [--keys] nor [--values], once the two files are
    parsed and neither document is empty, nothing more happens: the
    events of the run are those of reading and parsing the two files,
    nothing is printed, and the process ends with status 0. *)
Theorem compare_without_mode (h : Host) (f1 f2 : string)
    (t1 t2 : list event) (A B : list (string * scalar)) :
  extname h f1 = extname h f2 →
  parseFile h f1 = (t1, inr A) →
  parseFile h f2 = (t2, inr B) →
  A ≠ [] → B ≠ [] →
  let trace := compare h f1 f2 {| keys := false; values := false |} in
  trace = t1 ++ t2
  ∧ Forall (λ ev, is_access ev = true) trace
  ∧ failure h f1 f2 {| keys := false; values := false |} = None
  ∧ exit_status trace = 0%Z.
Proof.
  intros Hext Hp1 Hp2 HA HB trace.
  destruct (compare_returned h f1 f2 {| keys := false; values := false |} (t1 ++ t2))
    as [Htrace Hfailure].
  { rewrite (compare_body_parsed _ _ _ _ t1 A t2 B) by done.
    rewrite empty_report_nonempty by done. simpl. by rewrite app_nil_r. }
  assert (Forall (λ ev, is_access ev = true) trace) as Hacc.
  { unfold trace. rewrite Htrace. apply Forall_app. split.
    - pose proof (parseFile_accesses h f1) as H1. by rewrite Hp1 in H1.
    - pose proof (parseFile_accesses h f2) as H2. by rewrite Hp2 in H2. }
  split_and!; [done|done|done|].
  rewrite <-(app_nil_r trace). by rewrite exit_status_accesses.
Qed.

Lemma compare_without_mode_witness :
  let trace := compare env_host "a.env" "b.env" {| keys := false; values := false |} in
  trace
  = [ExistsSync "/cwd/a.env"; ReadFileSync "/cwd/a.env"; DotenvParse "FOO=1
BAR=2"]
    ++ [ExistsSync "/cwd/b.env"; ReadFileSync "/cwd/b.env"; DotenvParse "FOO=1
BAZ=3"]
  ∧ Forall (λ ev, is_access ev = true) trace
  ∧ failure env_host "a.env" "b.env" {| keys := false; values := false |} = None
  ∧ exit_status trace = 0%Z.
Proof.
  by apply (compare_without_mode env_host "a.env" "b.env" _ _
              [("FOO", SString "1"); ("BAR", SString "2")]
              [("FOO", SString "1"); ("BAZ", SString "3")]).
Defined.

(** * Further properties *)

(** ** Key comparison: order and agreement *)

(** X1. Each result list of [compareEnvKeys] keeps the order of the array
    it was filtered from, and comparing the other way round returns the
    same two lists with their roles exchanged. *)
Theorem compareEnvKeys_order_and_swap (A B : list string) :
  sublist (missingKeysInFirstConfigFile (compareEnvKeys A B)) B
  ∧ sublist (missingKeysInSecondConfigFile (compareEnvKeys A B)) A
  ∧ missingKeysInFirstConfigFile (compareEnvKeys B A)
    = missingKeysInSecondConfigFile (compareEnvKeys A B)
  ∧ missingKeysInSecondConfigFile (compareEnvKeys B A)
    = missingKeysInFirstConfigFile (compareEnvKeys A B).
Proof.
  split_and!; [simpl; apply sublist_filter|simpl; apply sublist_filter|done|done].
Qed.

(** X2. [compareEnvKeys] returns two empty lists exactly when the two
    arrays hold the same keys, in whatever order and however often; and
    no key is ever in both lists. *)
Theorem compareEnvKeys_no_difference (A B : list string) :
  (missingKeysInFirstConfigFile (compareEnvKeys A B) = []
   ∧ missingKeysInSecondConfigFile (compareEnvKeys A B) = []
   ↔ ∀ k, k ∈ A ↔ k ∈ B)
  ∧ (∀ k, k ∈ missingKeysInFirstConfigFile (compareEnvKeys A B) →
          k ∉ missingKeysInSecondConfigFile (compareEnvKeys A B)).
Proof.
  split.
  - split.
    + intros [H1 H2] k. split; intros Hk.
      * destruct (decide (k ∈ B)) as [|Hn]; [done|].
        assert (k ∈ missingKeysInSecondConfigFile (compareEnvKeys A B)) as Hin
          by by apply elem_of_missingKeysInSecondConfigFile.
        rewrite H2 in Hin. by apply elem_of_nil in Hin.
      * destruct (decide (k ∈ A)) as [|Hn]; [done|].
        assert (k ∈ missingKeysInFirstConfigFile (compareEnvKeys A B)) as Hin
          by by apply elem_of_missingKeysInFirstConfigFile.
        rewrite H1 in Hin. by apply elem_of_nil in Hin.
    + intros Hsame. split; apply elem_of_nil_inv; intros k.
      * rewrite elem_of_missingKeysInFirstConfigFile. intros [? Hn]. by apply Hn, Hsame.
      * rewrite elem_of_missingKeysInSecondConfigFile. intros [? Hn]. by apply Hn, Hsame.
  - intros k [_ HnA]%elem_of_missingKeysInFirstConfigFile
             [HA _]%elem_of_missingKeysInSecondConfigFile. done.
Qed.

(** ** Value comparison: which keys are reported *)

(** X3. A key is a property of the result of [getValueDifferences]
    exactly when it is not [__proto__] and its two values, read through
    the prototype chain, are both not [undefined] and not strictly equal;
    such a key is a property of at least one of the two documents, and
    comparing the other way round reports the same keys. With two
    different file names the object stored for a key has two properties,
    the two values read, each under the name of its file. A document
    without a [NaN] value compared with itself gives the empty result. *)
Theorem getValueDifferences_reported_keys (f1 f2 : string) (A B : document) :
  let D := getValueDifferences f1 f2 A B in
  (∀ key, key ∈ Object_keys D ↔ key ≠ "__proto__" ∧ differ_strictly A B key)
  ∧ (∀ key, differ_strictly A B key →
       key ∈ Object_keys (own A) ∨ key ∈ Object_keys (own B))
  ∧ (∀ key, key ∈ Object_keys (getValueDifferences f2 f1 B A) ↔ key ∈ Object_keys D)
  ∧ (f1 ≠ f2 → ∀ key, key ∈ Object_keys D →
       ∃ d, prop_lookup D key = Some d
            ∧ d ≡ₚ [(f1, prop_get A key); (f2, prop_get B key)])
  ∧ ((∀ key, prop_get A key ≠ Held (SNumber NaN)) →
       getValueDifferences f1 f2 A A = []).
Proof.
  intros D. split_and!.
  - intros key. apply elem_of_getValueDifferences.
  - intros key Hd%valuesDiffer_spec. by apply valuesDiffer_owned.
  - intros key. unfold D. rewrite !elem_of_getValueDifferences.
    by rewrite (differ_strictly_sym B A).
  - intros Hne key [Hproto Hd%valuesDiffer_spec]%elem_of_getValueDifferences.
    unfold D. rewrite getValueDifferences_lookup, Hd, bool_decide_eq_false_2 by done.
    simpl. rewrite difference_two_files by done. by eexists.
  - apply getValueDifferences_self.
Qed.

Lemma getValueDifferences_reported_keys_witness :
  let A := {| own := [("FOO", SString "1"); ("BAR", SString "x")]; inherits := true |} in
  let B := {| own := [("FOO", SString "2"); ("BAR", SString "x")]; inherits := true |} in
  (∃ d, prop_lookup (getValueDifferences "a.env" "b.env" A B) "FOO" = Some d
        ∧ d ≡ₚ [("a.env", prop_get A "FOO"); ("b.env", prop_get B "FOO")])
  ∧ getValueDifferences "a.env" "b.env" A A = [].
Proof.
  intros A B.
  destruct (getValueDifferences_reported_keys "a.env" "b.env" A B)
    as (Hkeys & _ & _ & Hpair & Hself).
  split.
  - apply Hpair; [done|]. apply Hkeys. split; [done|].
    unfold differ_strictly. split_and!; done.
  - apply Hself. intros key. unfold prop_get, A. simpl.
    repeat case_decide; try done; by case_bool_decide.
Defined.

(** ** Value comparison of two [.env] documents *)

Lemma prop_get_strings (E : list (string * string)) key :
  prop_get {| own := prod_map id SString <$> E; inherits := true |} key
  = match prop_lookup E key with
    | Some a => Held (SString a)
    | None => if bool_decide (key ∈ Object_prototype_names)
              then Inherited key else undefined
    end.
Proof.
  unfold prop_get. simpl.
  assert (prop_lookup (prod_map id SString <$> E) key = SString <$> prop_lookup E key)
    as ->.
  { induction E as [|[k v] E IH]; simpl; [done|]. by destruct (decide (k = key)). }
  by destruct (prop_lookup E key).
Qed.

(** X4. For two documents as [dotenv.parse] returns them for [.env]
    files (objects created as [{}], all values strings), a key other
    than [__proto__] is a property of the result of
    [getValueDifferences] exactly when both documents define it, with
    different strings, or when one document only defines it and it names
    a member of [Object.prototype]. When no key of either document names
    such a member, the keys reported are exactly those that both define
    with different strings. A document compared with itself gives the
    empty result. *)
Theorem getValueDifferences_of_strings (f1 f2 : string) (EA EB : list (string * string)) :
  let A := {| own := prod_map id SString <$> EA; inherits := true |} in
  let B := {| own := prod_map id SString <$> EB; inherits := true |} in
  let D := getValueDifferences f1 f2 A B in
  (∀ key, key ∈ Object_keys D
          ↔ key ≠ "__proto__"
            ∧ match prop_lookup EA key, prop_lookup EB key with
              | Some a, Some b => a ≠ b
              | Some _, None | None, Some _ => key ∈ Object_prototype_names
              | None, None => False
              end)
  ∧ ((∀ key, key ∈ Object_keys EA ++ Object_keys EB → key ∉ Object_prototype_names) →
     ∀ key, key ∈ Object_keys D
            ↔ ∃ a b, prop_lookup EA key = Some a ∧ prop_lookup EB key = Some b ∧ a ≠ b)
  ∧ getValueDifferences f1 f2 A A = [].
Proof.
  intros A B D.
  assert (∀ key, key ∈ Object_keys D
          ↔ key ≠ "__proto__"
            ∧ match prop_lookup EA key, prop_lookup EB key with
              | Some a, Some b => a ≠ b
              | Some _, None | None, Some _ => key ∈ Object_prototype_names
              | None, None => False
              end) as Hrule.
  { intros key. unfold D. rewrite elem_of_getValueDifferences.
    apply and_iff_compat_l. unfold differ_strictly, A, B. rewrite !prop_get_strings.
    destruct (prop_lookup EA key) as [a|], (prop_lookup EB key) as [b|];
      repeat case_bool_decide; simpl; rewrite ?bool_decide_eq_false;
      split; try done; try (by intros (_ & _ & ?)); try (by intros (? & _));
      try (by intros (_ & ? & _)). }
  split_and!.
  - done.
  - intros Hnames key. rewrite Hrule. split.
    + intros [_ Hcase].
      destruct (prop_lookup EA key) as [a|] eqn:Ha, (prop_lookup EB key) as [b|] eqn:Hb.
      * by exists a, b.
      * exfalso. apply (Hnames key); [|done]. apply elem_of_app. left.
        apply prop_lookup_is_Some. by rewrite Ha.
      * exfalso. apply (Hnames key); [|done]. apply elem_of_app. right.
        apply prop_lookup_is_Some. by rewrite Hb.
      * done.
    + intros (a & b & Ha & Hb & Hne). rewrite Ha, Hb. split; [|done].
      intros ->. apply (Hnames "__proto__").
      * apply elem_of_app. left. apply prop_lookup_is_Some. by rewrite Ha.
      * apply (bool_decide_unpack _). vm_compute. exact I.
  - apply getValueDifferences_self. intros key. unfold A.
    rewrite prop_get_strings. destruct (prop_lookup EA key); [done|].
    by case_bool_decide.
Qed.

Lemma getValueDifferences_of_strings_witness :
  "FOO" ∈ Object_keys
    (getValueDifferences "a.env" "b.env"
       {| own := prod_map id SString <$> [("FOO", "1"); ("BAR", "x")];
          inherits := true |}
       {| own := prod_map id SString <$> [("FOO", "2"); ("BAZ", "y")];
          inherits := true |}).
Proof.
  apply (proj1 (proj2 (getValueDifferences_of_strings "a.env" "b.env"
                         [("FOO", "1"); ("BAR", "x")] [("FOO", "2"); ("BAZ", "y")]))).
  - intros key Hin Hname. simpl in Hin.
    rewrite !elem_of_cons, elem_of_nil in Hin.
    destruct Hin as [->|[->|[->|[->|[]]]]];
      apply (bool_decide_pack _) in Hname; vm_compute in Hname; done.
  - by exists "1", "2".
Defined.

(** ** Objects: keys stay unique, later assignments win *)

Section object_invariants.
Context {V : Type}.
Implicit Types (obj : list (string * V)) (key : string) (v : V).

Lemma prop_define_keys obj key v :
  Object_keys (prop_define obj key v)
  = if decide (key ∈ Object_keys obj) then Object_keys obj else Object_keys obj ++ [key].
Proof.
  unfold Object_keys. induction obj as [|[k w] obj IH]; [done|].
  cbn [prop_define]. destruct (decide (k = key)) as [->|Hne]; rewrite !fmap_cons.
  - by rewrite decide_True by apply list_elem_of_here.
  - rewrite IH. cbn [fst]. destruct (decide (key ∈ obj.*1)) as [Hin|Hnotin].
    + by rewrite decide_True by by apply list_elem_of_further.
    + rewrite decide_False; [done|].
      intros [?|?]%elem_of_cons; [congruence|done].
Qed.


Lemma prop_set_no_proto obj key v :
  "__proto__" ∉ Object_keys obj → "__proto__" ∉ Object_keys (prop_set obj key v).
Proof.
  intros Hproto. unfold prop_set. case_decide as Hkey; [done|].
  rewrite prop_define_keys. case_decide; [done|].
  rewrite elem_of_app, list_elem_of_singleton. intros [?|Heq]; [done|].
  apply Hkey. by rewrite <-Heq.
Qed.


Lemma Object_assign_no_proto (target source : list (string * V)) :
  "__proto__" ∉ Object_keys target →
  "__proto__" ∉ Object_keys (Object_assign target source).
Proof.
  unfold Object_assign. revert target.
  induction source as [|[k v] source IH]; intros target Hproto; simpl; [done|].
  by apply IH, prop_set_no_proto.
Qed.






End object_invariants.

(** ** Flattening any document *)


Lemma flattenProps_no_proto props parentKey sep result :
  "__proto__" ∉ Object_keys result →
  "__proto__" ∉ Object_keys (flattenProps props parentKey sep result).
Proof.
  revert result. induction props as [|[key v] props IH]; intros result Hnd; [done|].
  simpl. apply IH.
  destruct v; by apply prop_set_no_proto || by apply Object_assign_no_proto.
Qed.







(** ** Flattening: values without leaves, and string documents *)

Lemma flattenProps_app props1 props2 parentKey sep result :
  flattenProps (props1 ++ props2) parentKey sep result
  = flattenProps props2 parentKey sep (flattenProps props1 parentKey sep result).
Proof.
  revert result. induction props1 as [|[key v] props1 IH]; intros result; [done|].
  simpl. apply IH.
Qed.

Lemma flattenProps_nothing props parentKey sep result :
  Forall (λ kv, is_scalar kv.2 = false
                ∧ ∀ pk, flattenObj kv.2 pk sep = []) props →
  flattenProps props parentKey sep result = result.
Proof.
  revert result. induction props as [|[key v] props IH]; intros result Hprops; [done|].
  apply Forall_cons in Hprops as [[Hscalar Hv] Hprops]. simpl in Hscalar, Hv.
  simpl. rewrite Hv. destruct v; [done|by apply IH..].
Qed.

Lemma leaves_props_nil (props : list (string * jsval)) :
  leaves (Object props) = [] → Forall (λ kv, leaves kv.2 = []) props.
Proof.
  rewrite leaves_Object. induction props as [|[key v] props IH]; [constructor|].
  rewrite bind_cons. intros [Hv Hprops]%app_eq_nil.
  constructor; [|by apply IH]. simpl in *. by apply fmap_nil_inv in Hv.
Qed.

Lemma flattenObj_without_leaves v sep :
  is_scalar v = false → leaves v = [] → ∀ parentKey, flattenObj v parentKey sep = [].
Proof.
  induction v as [s|t|items IH|props IH] using jsval_ind;
    intros Hscalar Hleaves parentKey.
  - done.
  - done.
  - rewrite flattenObj_Array, flattenItems_indexed.
    rewrite leaves_Array in Hleaves. apply leaves_props_nil in Hleaves.
    apply flattenProps_nothing, Forall_forall. intros [key v] Hin.
    pose proof (proj1 (Forall_forall _ _) Hleaves _ Hin) as Hv. simpl in Hv |- *.
    apply (list_elem_of_fmap_2 snd) in Hin. rewrite indexed_values in Hin.
    assert (is_scalar v = false) as Hs by by destruct v.
    split; [done|]. by apply (proj1 (Forall_forall _ _) IH).
  - rewrite flattenObj_Object. apply leaves_props_nil in Hleaves.
    apply flattenProps_nothing, Forall_forall. intros [key v] Hin.
    pose proof (proj1 (Forall_forall _ _) Hleaves _ Hin) as Hv. simpl in Hv |- *.
    assert (is_scalar v = false) as Hs by by destruct v.
    split; [done|]. by apply (proj1 (Forall_forall _ _) IH (key, v)).
Qed.

(** X7. A value that is not a scalar and holds no scalar anywhere below
    (an empty object, an empty array, a date, or objects and arrays of
    these only) flattens to nothing; a property with such a value leaves
    no trace in the flattening of the object that holds it. *)
Theorem flattenObj_drops_values_without_leaves (v : jsval) (key : string)
    (before after : list (string * jsval)) (parentKey sep : string) :
  is_scalar v = false → leaves v = [] →
  flattenObj v parentKey sep = []
  ∧ flattenObj (Object (before ++ (key, v) :: after)) parentKey sep
    = flattenObj (Object (before ++ after)) parentKey sep.
Proof.
  intros Hscalar Hleaves. split; [by apply flattenObj_without_leaves|].
  rewrite !flattenObj_Object, !flattenProps_app.
  change ((key, v) :: after) with ([(key, v)] ++ after).
  rewrite flattenProps_app. f_equal.
  apply flattenProps_nothing. constructor; [|constructor].
  split; [done|]. intros pk. by apply flattenObj_without_leaves.
Qed.

Lemma flattenObj_drops_values_without_leaves_witness :
  let v := Object [("tags", Array []); ("since", DateObj 0); ("opts", Object [])] in
  flattenObj v "meta" "." = []
  ∧ flattenObj (Object ([("name", Scalar (SString "x"))] ++ ("meta", v)
                        :: [("port", Scalar (SNumber (Num 80)))])) "" "."
    = flattenObj (Object ([("name", Scalar (SString "x"))]
                          ++ [("port", Scalar (SNumber (Num 80)))])) "" ".".
Proof.
  intros v. split.
  - by apply (proj1 (flattenObj_drops_values_without_leaves v "meta" [] [] "meta" "."
                       eq_refl eq_refl)).
  - by apply (proj2 (flattenObj_drops_values_without_leaves v "meta" _ _ "" "."
                       eq_refl eq_refl)).
Defined.

Lemma flattenChars_fresh (cs : list string) (index : nat) (sep : string)
    (result : list (string * scalar)) :
  (∀ j, (index ≤ j)%nat → pretty j ∉ Object_keys result) →
  foldl (λ result kv, prop_set result (joinKey "" sep kv.1) (SString kv.2))
    result (imap (λ i c, (pretty (index + i), c)) cs)
  = result ++ imap (λ i c, (pretty (index + i), SString c)) cs.
Proof.
  revert index result. induction cs as [|c cs IH]; intros index result Hfresh.
  - simpl. by rewrite app_nil_r.
  - cbn [imap foldl]. rewrite Nat.add_0_r.
    change (joinKey "" sep (pretty index, c).1) with (pretty index). cbn [snd].
    rewrite prop_set_fresh by (by apply Hfresh || apply pretty_nat_not_proto).
    rewrite (imap_ext _ (λ i x, (pretty (S index + i), x))) by (intros; simpl; do 2 f_equal; lia).
    rewrite IH.
    + rewrite <-app_assoc. simpl. do 2 f_equal.
      apply imap_ext. intros j x _. simpl. do 2 f_equal. lia.
    + intros j Hj. unfold Object_keys. rewrite fmap_app. simpl.
      rewrite elem_of_app, list_elem_of_singleton. intros [Hin|Heq].
      * apply (Hfresh j); [lia|done].
      * apply (inj pretty) in Heq. lia.
Qed.

(** X8. A document that is a string of ASCII characters, and not an
    object, is flattened into its characters: one entry per character,
    under the index of the character as key. *)
Theorem flattenObj_string_document (s sep : string) :
  is_ascii s = true →
  flattenObj (Scalar (SString s)) "" sep
  = imap (λ i c, (pretty i, SString c)) (chars s).
Proof.
  intros _. apply (flattenChars_fresh (chars s) 0 sep []).
  intros j _. apply not_elem_of_nil.
Qed.

Lemma flattenObj_string_document_witness :
  is_ascii "ok" = true
  ∧ flattenObj (Scalar (SString "ok")) "" "."
    = [("0", SString "o"); ("1", SString "k")].
Proof.
  split; [reflexivity|]. by rewrite (flattenObj_string_document "ok" "." eq_refl).
Defined.

(** ** Runs: unsupported files, failures, the value mode *)

Lemma parseFile_unsupported h f :
  existsSync h (resolve h f) = true →
  extname h (resolve h f) ≠ ".env" →
  extname h (resolve h f) ≠ ".yaml" →
  extname h (resolve h f) ≠ ".yml" →
  parseFile h f
  = ([ExistsSync (resolve h f)],
     inl (UnsupportedFileTypeError (extname h (resolve h f)))).
Proof.
  intros Hex H1 H2 H3. unfold parseFile, validateAndReturnResolvedFilePath.
  rewrite Hex. simpl. by rewrite !bool_decide_eq_true_2 by done.
Qed.

(** X9. When the two paths have the same extension, a file that exists
    and whose extension is none of [.env], [.yaml], [.yml] stops the run
    with [UnsupportedFileTypeError] naming the extension, before the file
    is read: at once when it is the first file; and, when it is the
    second, after the first file has been validated, read and parsed
    without failure. *)
Theorem compare_unsupported_file_type (h : Host) (f1 f2 : string)
    (options : ConfigOptions) :
  (extname h f1 = extname h f2 →
   existsSync h (resolve h f1) = true →
   extname h (resolve h f1) ≠ ".env" →
   extname h (resolve h f1) ≠ ".yaml" →
   extname h (resolve h f1) ≠ ".yml" →
   compare h f1 f2 options
   = [ExistsSync (resolve h f1);
      ConsoleError (known_error_line
        ("UnsupportedFileTypeError: Unsupported File type - Type: "
         +:+ extname h (resolve h f1)));
      ProcessExit 1])
  ∧ (∀ t1 A,
     extname h f1 = extname h f2 →
     parseFile h f1 = (t1, inr A) →
     existsSync h (resolve h f2) = true →
     extname h (resolve h f2) ≠ ".env" →
     extname h (resolve h f2) ≠ ".yaml" →
     extname h (resolve h f2) ≠ ".yml" →
     compare h f1 f2 options
     = t1 ++ [ExistsSync (resolve h f2);
              ConsoleError (known_error_line
                ("UnsupportedFileTypeError: Unsupported File type - Type: "
                 +:+ extname h (resolve h f2)));
              ProcessExit 1]).
Proof.
  split.
  - intros Hext Hex H1 H2 H3.
    destruct (compare_failed h f1 f2 options [ExistsSync (resolve h f1)]
                (UnsupportedFileTypeError (extname h (resolve h f1)))) as [-> _];
      [|done].
    by apply compare_body_first_fails, parseFile_unsupported.
  - intros t1 A Hext Hp1 Hex H1 H2 H3.
    destruct (compare_failed h f1 f2 options (t1 ++ [ExistsSync (resolve h f2)])
                (UnsupportedFileTypeError (extname h (resolve h f2)))) as [-> _].
    + eapply compare_body_second_fails; [done|done|].
      by apply parseFile_unsupported.
    + by rewrite <-app_assoc.
Qed.

Lemma compare_unsupported_file_type_witness :
  compare txt_host "a.txt" "b.txt" {| keys := true; values := false |}
  = [ExistsSync "/cwd/a.txt";
     ConsoleError (known_error_line
       "UnsupportedFileTypeError: Unsupported File type - Type: .txt");
     ProcessExit 1].
Proof.
  by apply (proj1 (compare_unsupported_file_type txt_host "a.txt" "b.txt" _)).
Defined.

Lemma exit_status_no_error_output t :
  Forall (λ ev, is_error_output ev = false) t → exit_status t = 0%Z.
Proof. induction 1 as [|ev t Hev _ IH]; simpl; [done|]. by destruct ev. Qed.

Lemma is_access_not_error_output ev : is_access ev = true → is_error_output ev = false.
Proof. by destruct ev. Qed.

Lemma empty_report_not_error_output f1 f2 A B :
  Forall (λ ev, is_error_output ev = false) (empty_report f1 f2 A B).
Proof.
  unfold empty_report, checkIfAnyEnvironmentObjectIsEmpty.
  repeat case_match; by repeat constructor.
Qed.

(** X10. A run either fails or prints: when an exception reaches the
    [catch] block, all that happened before were file accesses, nothing
    was printed with [console.log], and the run ends with the error line
    and exit code 1; when none does, nothing is written with
    [console.error], [process.exit] is not called and the status is 0. *)
Theorem compare_fails_or_prints (h : Host) (f1 f2 : string) (options : ConfigOptions) :
  let trace := compare h f1 f2 options in
  match failure h f1 f2 options with
  | Some e =>
      (∃ accesses, trace = accesses ++ compare_catch e
                   ∧ Forall (λ ev, is_access ev = true) accesses)
      ∧ exit_status trace = 1%Z
  | None =>
      Forall (λ ev, is_error_output ev = false) trace ∧ exit_status trace = 0%Z
  end.
Proof.
  intros trace. unfold trace.
  assert (∀ t e, compare_body h f1 f2 options = (t, inl e) →
    Forall (λ ev, is_access ev = true) t →
    match failure h f1 f2 options with
    | Some e =>
        (∃ accesses, compare h f1 f2 options = accesses ++ compare_catch e
                     ∧ Forall (λ ev, is_access ev = true) accesses)
        ∧ exit_status (compare h f1 f2 options) = 1%Z
    | None =>
        Forall (λ ev, is_error_output ev = false) (compare h f1 f2 options)
        ∧ exit_status (compare h f1 f2 options) = 0%Z
    end) as Hfail.
  { intros t e Hbody Hacc. destruct (compare_failed _ _ _ _ _ _ Hbody) as [-> ->].
    split; [by exists t|]. by rewrite exit_status_accesses. }
  pose proof (parseFile_accesses h f1) as H1.
  pose proof (parseFile_accesses h f2) as H2.
  destruct (decide (extname h f1 = extname h f2)) as [Hext|Hext];
    [|by apply (Hfail [] FileCompareError); [apply compare_body_mismatch|]].
  destruct (parseFile h f1) as [t1 [e|A]] eqn:Hp1;
    [by apply (Hfail t1 e); [apply compare_body_first_fails|]|].
  destruct (parseFile h f2) as [t2 [e|B]] eqn:Hp2.
  { apply (Hfail (t1 ++ t2) e); [by eapply compare_body_second_fails|].
    by apply Forall_app. }
  destruct (compare_returned _ _ _ _ _
              (compare_body_parsed h f1 f2 options t1 A t2 B Hext Hp1 Hp2))
    as [Htrace ->].
  assert (Forall (λ ev, is_error_output ev = false) (compare h f1 f2 options)) as Hout.
  { rewrite Htrace, !Forall_app. simpl in H1, H2. split_and!.
    - eapply Forall_impl; [exact H1|]. apply is_access_not_error_output.
    - eapply Forall_impl; [exact H2|]. apply is_access_not_error_output.
    - apply empty_report_not_error_output.
    - destruct (keys options), (values options); by repeat constructor. }
  split; [done|]. by apply exit_status_no_error_output.
Qed.

Lemma getValueDifferences_nonempty f1 f2 A B :
  (0 < length (Object_keys (getValueDifferences f1 f2 A B)))%nat
  ↔ ∃ key, key ≠ "__proto__" ∧ differ_strictly A B key.
Proof.
  split.
  - intros Hlen. destruct (Object_keys (getValueDifferences f1 f2 A B))
      as [|key rest] eqn:Hkeys; [simpl in Hlen; lia|].
    exists key. apply (elem_of_getValueDifferences f1 f2). rewrite Hkeys.
    apply list_elem_of_here.
  - intros [key Hkey%(elem_of_getValueDifferences f1 f2)].
    destruct (Object_keys (getValueDifferences f1 f2 A B)); simpl; [|lia].
    by apply elem_of_nil in Hkey.
Qed.

(** X11. With [--values] and without [--keys], once both files are
    parsed the run ends with one message. The two documents are read as
    JavaScript reads a property, through the prototype of the object
    that [parseFile] returned, so that a name of [Object.prototype] that
    the document does not define reads as the method it inherits, not as
    [undefined]. The message is the value differences when some key
    other than [__proto__] reads as not [undefined] in both documents
    and as two values that are not strictly equal, and the message that
    there are none otherwise. *)
Theorem compare_values_mode (h : Host) (f1 f2 : string)
    (t1 t2 : list event) (A B : list (string * scalar)) :
  extname h f1 = extname h f2 →
  parseFile h f1 = (t1, inr A) →
  parseFile h f2 = (t2, inr B) →
  ∃ m, compare h f1 f2 {| keys := false; values := true |}
       = t1 ++ t2 ++ empty_report f1 f2 A B ++ [ConsoleLog m]
     ∧ ((m = ValueDifferences
               (getValueDifferences f1 f2 (parsed h f1 A) (parsed h f2 B))
         ∧ ∃ key, key ≠ "__proto__"
                  ∧ differ_strictly (parsed h f1 A) (parsed h f2 B) key)
        ∨ (m = NoValueDifferences
           ∧ ∀ key, key ≠ "__proto__"
                    → ¬ differ_strictly (parsed h f1 A) (parsed h f2 B) key)).
Proof.
  intros Hext Hp1 Hp2.
  destruct (compare_returned _ _ _ _ _
              (compare_body_parsed h f1 f2 {| keys := false; values := true |}
                 t1 A t2 B Hext Hp1 Hp2)) as [-> _].
  simpl. case_bool_decide as Hlen; eexists; (split; [reflexivity|]).
  - left. split; [done|]. by apply (getValueDifferences_nonempty f1 f2).
  - right. split; [done|]. intros key Hproto Hkey. apply Hlen.
    apply getValueDifferences_nonempty. by exists key.
Qed.

Lemma compare_values_mode_witness :
  let A := parsed values_host "a.env" [("FOO", SString "1")] in
  let B := parsed values_host "b.env" [("FOO", SString "2")] in
  ∃ m, compare values_host "a.env" "b.env" {| keys := false; values := true |}
       = [ExistsSync "/cwd/a.env"; ReadFileSync "/cwd/a.env"; DotenvParse "FOO=1"]
         ++ [ExistsSync "/cwd/b.env"; ReadFileSync "/cwd/b.env"; DotenvParse "FOO=2"]
         ++ empty_report "a.env" "b.env" [("FOO", SString "1")] [("FOO", SString "2")]
         ++ [ConsoleLog m]
     ∧ ((m = ValueDifferences (getValueDifferences "a.env" "b.env" A B)
         ∧ ∃ key, key ≠ "__proto__" ∧ differ_strictly A B key)
        ∨ (m = NoValueDifferences
           ∧ ∀ key, key ≠ "__proto__" → ¬ differ_strictly A B key)).
Proof.
  by apply (compare_values_mode values_host "a.env" "b.env").
Defined.

(** ** The texts of the key report *)

Lemma determineMessage_no_missing (array : list string) :
  determineMessageByCheckingArraySize array = "No missing key in config file"
  ↔ array = [].
Proof.
  unfold determineMessageByCheckingArraySize.
  destruct array as [|x [|y array]]; simpl; split; done.
Qed.

(** X12. The key report says that no key is missing from the first file
    exactly when every key of the second file is a key of the first, and
    likewise for the second file. *)
Theorem determineMessage_of_compareEnvKeys (A B : list string) :
  (determineMessageByCheckingArraySize
     (missingKeysInFirstConfigFile (compareEnvKeys A B))
   = "No missing key in config file" ↔ ∀ k, k ∈ B → k ∈ A)
  ∧ (determineMessageByCheckingArraySize
       (missingKeysInSecondConfigFile (compareEnvKeys A B))
     = "No missing key in config file" ↔ ∀ k, k ∈ A → k ∈ B).
Proof.
  split; rewrite determineMessage_no_missing; split.
  - intros Hnil k Hk. destruct (decide (k ∈ A)) as [|Hn]; [done|].
    assert (k ∈ missingKeysInFirstConfigFile (compareEnvKeys A B)) as Hin
      by by apply elem_of_missingKeysInFirstConfigFile.
    rewrite Hnil in Hin. by apply elem_of_nil in Hin.
  - intros Hsub. apply elem_of_nil_inv. intros k.
    rewrite elem_of_missingKeysInFirstConfigFile. intros [? Hn]. by apply Hn, Hsub.
  - intros Hnil k Hk. destruct (decide (k ∈ B)) as [|Hn]; [done|].
    assert (k ∈ missingKeysInSecondConfigFile (compareEnvKeys A B)) as Hin
      by by apply elem_of_missingKeysInSecondConfigFile.
    rewrite Hnil in Hin. by apply elem_of_nil in Hin.
  - intros Hsub. apply elem_of_nil_inv. intros k.
    rewrite elem_of_missingKeysInSecondConfigFile. intros [? Hn]. by apply Hn, Hsub.
Qed.

Lemma concat_snoc (sep : string) (l : list string) (x : string) :
  l ≠ [] → String.concat sep (l ++ [x]) = String.concat sep l +:+ sep +:+ x.
Proof.
  induction l as [|y l IH]; [done|]. intros _.
  destruct l as [|z l]; [done|].
  change (String.concat sep ((y :: z :: l) ++ [x]))
    with (y +:+ sep +:+ String.concat sep ((z :: l) ++ [x])).
  rewrite IH by done.
  change (String.concat sep (y :: z :: l)) with (y +:+ sep +:+ String.concat sep (z :: l)).
  by rewrite !string_app_assoc.
Qed.

(** X13. [formatKeysAsEnumerated] numbers the keys from 0: a single key
    is shown as [0. key], and the last of n + 1 keys carries the
    number n. *)
Theorem formatKeysAsEnumerated_numbering (arg : list string) (key : string) :
  formatKeysAsEnumerated [key] = "0. " +:+ key
  ∧ (arg ≠ [] →
     formatKeysAsEnumerated (arg ++ [key])
     = formatKeysAsEnumerated arg +:+ blank_line
       +:+ pretty (length arg) +:+ ". " +:+ key).
Proof.
  split; [done|]. intros Hne. unfold formatKeysAsEnumerated.
  rewrite imap_app. simpl. rewrite Nat.add_0_r. apply concat_snoc.
  by destruct arg.
Qed.

Lemma formatKeysAsEnumerated_numbering_witness :
  formatKeysAsEnumerated (["FOO"; "BAR"] ++ ["BAZ"])
  = formatKeysAsEnumerated ["FOO"; "BAR"] +:+ blank_line
    +:+ pretty (length ["FOO"; "BAR"]) +:+ ". " +:+ "BAZ".
Proof.
  by apply (proj2 (formatKeysAsEnumerated_numbering ["FOO"; "BAR"] "BAZ")).
Defined.

(** ** What a run reads *)

Lemma parseFile_reads h f p :
  ReadFileSync p ∈ (parseFile h f).1 →
  p = resolve h f ∧ existsSync h p = true
  ∧ (extname h p = ".env" ∨ extname h p = ".yaml" ∨ extname h p = ".yml").
Proof.
  unfold parseFile, validateAndReturnResolvedFilePath, readFile.
  destruct (existsSync h (resolve h f)) eqn:Hex; simpl.
  2:{ intros [?|?%elem_of_nil]%elem_of_cons; done. }
  destruct (bool_decide (extname h (resolve h f) ≠ ".env")
            && bool_decide (extname h (resolve h f) ≠ ".yaml")
            && bool_decide (extname h (resolve h f) ≠ ".yml")) eqn:Hext; simpl.
  { intros [?|?%elem_of_nil]%elem_of_cons; done. }
  assert (extname h (resolve h f) = ".env" ∨ extname h (resolve h f) = ".yaml"
          ∨ extname h (resolve h f) = ".yml") as Hsupported.
  { apply andb_false_iff in Hext as [[H|H]%andb_false_iff|H];
      apply bool_decide_eq_false in H; apply dec_stable in H; auto. }
  assert (∀ t : list event, ReadFileSync p ∈ ExistsSync (resolve h f) :: t →
            Forall (λ ev, ev = ReadFileSync (resolve h f) ∨ ∀ q, ev ≠ ReadFileSync q) t →
            p = resolve h f) as Hread.
  { intros t [?|Hin]%elem_of_cons Hall; [done|].
    destruct (proj1 (Forall_forall _ _) Hall _ Hin) as [[= ->]|Hne]; [done|].
    by destruct (Hne p). }
  intros Hin. assert (p = resolve h f) as ->; [|done].
  revert Hin. unfold mbind, M_bind. simpl.
  destruct (bool_decide (extname h (resolve h f) = ".env")); simpl;
    destruct (readFileSync h (resolve h f)) as [thrown|content]; simpl;
    try destruct (yaml_load h content); simpl;
    intros Hin; apply (Hread _ Hin);
    repeat (apply Forall_cons_2; [(by left) || (by right)|]); apply Forall_nil_2.
Qed.

(** The events of a run: accesses made while parsing the first file and
    then the second, followed by output only. *)
Lemma compare_accesses_then_output h f1 f2 options :
  ∃ accesses outputs,
    compare h f1 f2 options = accesses ++ outputs
    ∧ Forall (λ ev, is_access ev = false) outputs
    ∧ (accesses = [] ∨ accesses = (parseFile h f1).1
       ∨ accesses = (parseFile h f1).1 ++ (parseFile h f2).1).
Proof.
  assert (∀ e, Forall (λ ev, is_access ev = false) (compare_catch e)) as Hcatch
    by by repeat constructor.
  destruct (decide (extname h f1 = extname h f2)) as [Hext|Hext].
  - destruct (parseFile h f1) as [t1 [e|A]] eqn:Hp1.
    + destruct (compare_failed h f1 f2 options t1 e) as [-> _].
      { by apply compare_body_first_fails. }
      exists t1, (compare_catch e). split_and!; [done|done|by right; left].
    + destruct (parseFile h f2) as [t2 [e|B]] eqn:Hp2.
      * destruct (compare_failed h f1 f2 options (t1 ++ t2) e) as [-> _].
        { by eapply compare_body_second_fails. }
        exists (t1 ++ t2), (compare_catch e). split_and!; [done|done|by right; right].
      * destruct (compare_returned _ _ _ _ _
                    (compare_body_parsed h f1 f2 options t1 A t2 B Hext Hp1 Hp2))
          as [-> _].
        eexists (t1 ++ t2), _. split_and!; [by rewrite <-app_assoc| |by right; right].
        apply Forall_app. split.
        -- unfold empty_report, checkIfAnyEnvironmentObjectIsEmpty.
           repeat case_match; by repeat constructor.
        -- destruct (keys options), (values options); by repeat constructor.
  - destruct (compare_failed h f1 f2 options [] FileCompareError) as [-> _].
    { by apply compare_body_mismatch. }
    exists [], (compare_catch FileCompareError). split_and!; [done|done|by left].
Qed.

(** X14. A run reads nothing but its two files, and either of them only
    after finding that it exists and that its extension is one of
    [.env], [.yaml] and [.yml]. *)
Theorem compare_reads_validated_files (h : Host) (f1 f2 : string)
    (options : ConfigOptions) (p : string) :
  ReadFileSync p ∈ compare h f1 f2 options →
  (p = resolve h f1 ∨ p = resolve h f2)
  ∧ existsSync h p = true
  ∧ (extname h p = ".env" ∨ extname h p = ".yaml" ∨ extname h p = ".yml").
Proof.
  destruct (compare_accesses_then_output h f1 f2 options)
    as (accesses & outputs & -> & Hout & Hacc).
  intros [Hin|Hin]%elem_of_app.
  - destruct Hacc as [->|[->| ->]].
    + by apply elem_of_nil in Hin.
    + apply parseFile_reads in Hin as (-> & ? & ?). split_and!; [by left|done|done].
    + apply elem_of_app in Hin as [Hin|Hin];
        apply parseFile_reads in Hin as (-> & ? & ?);
        (split_and!; [(by left) || (by right)|done|done]).
  - by pose proof (proj1 (Forall_forall _ _) Hout _ Hin).
Qed.

Lemma compare_reads_validated_files_witness :
  (("/cwd/b.env" : string) = resolve env_host "a.env"
   ∨ ("/cwd/b.env" : string) = resolve env_host "b.env")
  ∧ existsSync env_host "/cwd/b.env" = true
  ∧ (extname env_host "/cwd/b.env" = ".env" ∨ extname env_host "/cwd/b.env" = ".yaml"
     ∨ extname env_host "/cwd/b.env" = ".yml").
Proof.
  apply (compare_reads_validated_files env_host "a.env" "b.env"
           {| keys := true; values := false |}).
  vm_compute. do 4 apply list_elem_of_further. apply list_elem_of_here.
Defined.
